(** * Canonical serialization, digests and identifiers of [src/core/canonical.ts]

    A shallow embedding of the five exported functions of
    [src/src/core/canonical.ts]:
    [canonicalize], [sha256Hex], [id32], [deepFreeze] and [deepClone].

    ECMAScript strings are sequences of UTF-16 code units, so a string is a
    list of code units (numbers below 65536).  The built-ins the file calls
    ([JSON.stringify], [Array.prototype.sort], [Array.prototype.join],
    [Object.keys], [Object.freeze], node's [createHash('sha256')]) are
    written out after ECMA-262 and FIPS 180-4.

    The functions are embedded twice.  On trees ([Value]), where a value is
    what it contains, [canonicalize], [sha256Hex] and [id32] are total
    functions.  On a heap ([Heap]), where arrays and objects have an
    identity, can be shared, frozen and cyclic, [canonicalize],
    [deepFreeze] and [deepClone] take the depth of the call stack as fuel.
    [canonicalize_represents] shows that the two embeddings of
    [canonicalize] agree. *)

From Stdlib Require Import NArith ZArith String Ascii Lia ZifyN DecimalN DecimalFacts.
From stdpp Require Import prelude sorting.

Set Warnings "-register-all".

Local Open Scope N_scope.

(** ** Strings as UTF-16 code units *)

Definition jsstring : Type := list N.

(** An ASCII literal as a list of code units. *)
Fixpoint lit (s : string) : jsstring :=
  match s with
  | EmptyString => []
  | String a rest => N_of_ascii a :: lit rest
  end.

(** An ASCII literal between double quotes. *)
Definition quoted (s : string) : jsstring := [0x22] ++ lit s ++ [0x22].

Definition well_formed_units (s : jsstring) : Prop :=
  Forall (λ c, c < 65536) s.

Definition is_leading_surrogate (c : N) : bool :=
  (0xD800 <=? c) && (c <=? 0xDBFF).

Definition is_trailing_surrogate (c : N) : bool :=
  (0xDC00 <=? c) && (c <=? 0xDFFF).

Definition is_surrogate (c : N) : bool :=
  (0xD800 <=? c) && (c <=? 0xDFFF).

(** ECMA-262 UTF16SurrogatePairToCodePoint. *)
Definition UTF16SurrogatePairToCodePoint (lead trail : N) : N :=
  (lead - 0xD800) * 0x400 + (trail - 0xDC00) + 0x10000.

(** ECMA-262 StringToCodePoints: a leading surrogate followed by a trailing
    one is one code point, every other code unit (a lone surrogate too) is a
    code point of its own. *)
Fixpoint StringToCodePoints (s : jsstring) : list N :=
  match s with
  | [] => []
  | c :: rest =>
      match rest with
      | d :: rest' =>
          if is_leading_surrogate c && is_trailing_surrogate d
          then UTF16SurrogatePairToCodePoint c d :: StringToCodePoints rest'
          else c :: StringToCodePoints rest
      | [] => [c]
      end
  end.

(** ECMA-262 UTF16EncodeCodePoint. *)
Definition UTF16EncodeCodePoint (cp : N) : jsstring :=
  if cp <=? 0xFFFF then [cp]
  else [(cp - 0x10000) / 0x400 + 0xD800; (cp - 0x10000) mod 0x400 + 0xDC00].

(** Lexicographic comparison of two sequences of numbers.  On code units it
    is the order of ECMA-262 IsLessThan on strings; applied to
    [StringToCodePoints] it is the order by code points. *)
Fixpoint lex_compare (x y : list N) : comparison :=
  match x, y with
  | [], [] => Eq
  | [], _ :: _ => Lt
  | _ :: _, [] => Gt
  | a :: x', b :: y' =>
      match N.compare a b with
      | Eq => lex_compare x' y'
      | c => c
      end
  end.

(** [x] does not sort after [y] by code units: what the default comparator
    of [Array.prototype.sort] answers for two strings. *)
Definition unit_le (x y : jsstring) : Prop := lex_compare x y ≠ Gt.

(** The same on code points, the order RFC-unaware readers expect. *)
Definition code_point_le (x y : jsstring) : Prop :=
  lex_compare (StringToCodePoints x) (StringToCodePoints y) ≠ Gt.

Global Instance unit_le_dec x y : Decision (unit_le x y).
Proof. unfold unit_le. apply _. Defined.

Global Instance code_point_le_dec x y : Decision (code_point_le x y).
Proof. unfold code_point_le. apply _. Defined.

(** A string without surrogate code units is its own sequence of code
    points, and on such strings the two orders agree. *)
Definition no_surrogates (s : jsstring) : Prop :=
  Forall (λ c, is_surrogate c = false) s.

(** [Array.prototype.sort] without a comparator, on an array of strings: a
    stable sort by code units.  ECMA-262 leaves the algorithm open and fixes
    the result, a sorted permutation; merge sort is what engines run. *)
Definition Array_sort (keys : list jsstring) : list jsstring :=
  merge_sort unit_le keys.

(** [Array.prototype.join] on an array of strings. *)
Fixpoint Array_join (sep : jsstring) (items : list jsstring) : jsstring :=
  match items with
  | [] => []
  | [x] => x
  | x :: rest => x ++ sep ++ Array_join sep rest
  end.

(** [String.prototype.slice(0, n)]. *)
Definition String_slice0 (n : nat) (s : jsstring) : jsstring := take n s.

(** ** JSON.stringify on strings: ECMA-262 QuoteJSONString *)

Definition hex_digit (n : N) : N :=
  if n <? 10 then 48 + n else 87 + n.

(** ECMA-262 UnicodeEscape: backslash, u and four lowercase hex digits. *)
Definition UnicodeEscape (c : N) : jsstring :=
  [0x5C; 0x75;
   hex_digit (c / 4096 mod 16); hex_digit (c / 256 mod 16);
   hex_digit (c / 16 mod 16); hex_digit (c mod 16)].

Definition quote_code_point (c : N) : jsstring :=
  if c =? 0x08 then [0x5C; 0x62]
  else if c =? 0x09 then [0x5C; 0x74]
  else if c =? 0x0A then [0x5C; 0x6E]
  else if c =? 0x0C then [0x5C; 0x66]
  else if c =? 0x0D then [0x5C; 0x72]
  else if c =? 0x22 then [0x5C; 0x22]
  else if c =? 0x5C then [0x5C; 0x5C]
  else if (c <? 0x20) || is_surrogate c then UnicodeEscape c
  else UTF16EncodeCodePoint c.

Definition QuoteJSONString (s : jsstring) : jsstring :=
  [0x22] ++ flat_map quote_code_point (StringToCodePoints s) ++ [0x22].

(** ** UTF-8 encoding, as node's [hash.update(string)] applies it *)

(** A lone surrogate cannot be encoded; node writes U+FFFD for it. *)
Definition utf8_code_point (c : N) : list N :=
  let c := if is_surrogate c then 0xFFFD else c in
  if c <? 0x80 then [c]
  else if c <? 0x800 then [0xC0 + c / 64; 0x80 + c mod 64]
  else if c <? 0x10000 then
    [0xE0 + c / 4096; 0x80 + c / 64 mod 64; 0x80 + c mod 64]
  else
    [0xF0 + c / 262144 mod 8; 0x80 + c / 4096 mod 64;
     0x80 + c / 64 mod 64; 0x80 + c mod 64].

Definition utf8_encode (s : jsstring) : list N :=
  flat_map utf8_code_point (StringToCodePoints s).

(** ** SHA-256 (FIPS 180-4) on bytes, 32-bit words as [N] *)

Module SHA256.

Definition mask32 : N := 0xFFFFFFFF.

Definition add32 (x y : N) : N := (x + y) mod 2 ^ 32.

Definition rotr (n x : N) : N :=
  N.lor (N.shiftr x n) (N.land (N.shiftl x (32 - n)) mask32).

Definition Ch (x y z : N) : N :=
  N.lxor (N.land x y) (N.land (N.lxor x mask32) z).

Definition Maj (x y z : N) : N :=
  N.lxor (N.lxor (N.land x y) (N.land x z)) (N.land y z).

Definition Sigma0 (x : N) : N :=
  N.lxor (N.lxor (rotr 2 x) (rotr 13 x)) (rotr 22 x).

Definition Sigma1 (x : N) : N :=
  N.lxor (N.lxor (rotr 6 x) (rotr 11 x)) (rotr 25 x).

Definition sigma0 (x : N) : N :=
  N.lxor (N.lxor (rotr 7 x) (rotr 18 x)) (N.shiftr x 3).

Definition sigma1 (x : N) : N :=
  N.lxor (N.lxor (rotr 17 x) (rotr 19 x)) (N.shiftr x 10).

(** The constants are the first 32 bits of the fractional parts of the
    square roots (initial hash value) and cube roots (round constants) of
    the first primes; they are computed here rather than tabulated. *)
Definition primes : list N :=
  [2; 3; 5; 7; 11; 13; 17; 19; 23; 29; 31; 37; 41; 43; 47; 53;
   59; 61; 67; 71; 73; 79; 83; 89; 97; 101; 103; 107; 109; 113; 127; 131;
   137; 139; 149; 151; 157; 163; 167; 173; 179; 181; 191; 193; 197; 199;
   211; 223; 227; 229; 233; 239; 241; 251; 257; 263; 269; 271; 277; 281;
   283; 293; 307; 311].

(** Integer cube root, bit by bit from bit [i] down. *)
Fixpoint cbrt_bits (i : nat) (n r : N) : N :=
  let r' := r + 2 ^ N.of_nat i in
  let r := if r' * r' * r' <=? n then r' else r in
  match i with
  | O => r
  | S j => cbrt_bits j n r
  end.

Definition frac_sqrt32 (p : N) : N := N.sqrt (p * 2 ^ 64) mod 2 ^ 32.
Definition frac_cbrt32 (p : N) : N := cbrt_bits 40 (p * 2 ^ 96) 0 mod 2 ^ 32.

Definition K : list N := Eval vm_compute in map frac_cbrt32 primes.

Record state : Type := State {
  h0 : N; h1 : N; h2 : N; h3 : N; h4 : N; h5 : N; h6 : N; h7 : N
}.

Definition H0 : state := Eval vm_compute in
  match map frac_sqrt32 (take 8 primes) with
  | [a; b; c; d; e; f; g; h] => State a b c d e f g h
  | _ => State 0 0 0 0 0 0 0 0
  end.

(** Padding (FIPS 180-4, 5.1.1): a 1 bit, zero bits up to 56 modulo 64
    bytes, the length in bits on 8 bytes, big-endian. *)
Definition be_bytes (n : nat) (x : N) : list N :=
  map (λ i, N.land (N.shiftr x (8 * N.of_nat i)) 0xFF) (rev (seq 0 n)).

Definition pad (msg : list N) : list N :=
  let len := N.of_nat (length msg) in
  let zeros := (64 - (len + 9) mod 64) mod 64 in
  msg ++ [0x80] ++ replicate (N.to_nat zeros) 0 ++ be_bytes 8 (8 * len).

Definition be_word (bs : list N) : N :=
  fold_left (λ acc b, acc * 256 + b) bs 0.

Fixpoint words (n : nat) (bs : list N) : list N :=
  match n with
  | O => []
  | S n' => be_word (take 4 bs) :: words n' (drop 4 bs)
  end.

(** Message schedule (6.2.2 step 1). *)
Definition schedule_step (W : list N) : list N :=
  let t := length W in
  let w i := nth (t - i) W 0 in
  W ++ [add32 (add32 (add32 (sigma1 (w 2%nat)) (w 7%nat))
                     (sigma0 (w 15%nat))) (w 16%nat)].

Definition schedule (block : list N) : list N :=
  Nat.iter 48 schedule_step block.

(** One round (6.2.2 step 3). *)
Definition round (s : state) (kw : N * N) : state :=
  let '(State a b c d e f g h) := s in
  let T1 := add32 (add32 (add32 (add32 h (Sigma1 e)) (Ch e f g)) kw.1) kw.2 in
  let T2 := add32 (Sigma0 a) (Maj a b c) in
  State (add32 T1 T2) a b c (add32 d T1) e f g.

Definition compress (H : state) (block : list N) : state :=
  let s := fold_left round (zip K (schedule block)) H in
  State (add32 (h0 H) (h0 s)) (add32 (h1 H) (h1 s))
        (add32 (h2 H) (h2 s)) (add32 (h3 H) (h3 s))
        (add32 (h4 H) (h4 s)) (add32 (h5 H) (h5 s))
        (add32 (h6 H) (h6 s)) (add32 (h7 H) (h7 s)).

Fixpoint process (nblocks : nat) (ws : list N) (H : state) : state :=
  match nblocks with
  | O => H
  | S n => process n (drop 16 ws) (compress H (take 16 ws))
  end.

Definition state_bytes (s : state) : list N :=
  flat_map (be_bytes 4) [h0 s; h1 s; h2 s; h3 s; h4 s; h5 s; h6 s; h7 s].

(** The 32-byte digest of a byte string. *)
Definition digest (msg : list N) : list N :=
  let padded := pad msg in
  let nblocks := (length padded / 64)%nat in
  state_bytes (process nblocks (words (16 * nblocks) padded) H0).

End SHA256.

(** [digest('hex')]: two lowercase hex digits per byte. *)
Definition hex_encode (bytes : list N) : jsstring :=
  flat_map (λ b, [hex_digit (b / 16); hex_digit (b mod 16)]) bytes.

Definition is_lower_hex (c : N) : Prop :=
  (48 <= c <= 57) ∨ (97 <= c <= 102).

(** The code units a number is written with: digits, sign, point and
    exponent mark. *)
Definition is_number_unit (c : N) : bool :=
  ((48 <=? c) && (c <=? 57)) || (c =? 43) || (c =? 45) || (c =? 46)
  || (c =? 101).

(** What can follow a canonical string inside a larger one: nothing, or a
    code unit no number is written with. *)
Definition stops (r : jsstring) : Prop :=
  match r with
  | [] => True
  | c :: _ => is_number_unit c = false
  end.

(** ** Values *)

(** Number::toString of the language runtime, on a type [F] of finite
    Number values. *)
Class NumberPrinter (F : Type) : Type := Number_toString : F → jsstring.

(** What ECMA-262 grants of Number::toString on finite numbers: the text
    is not empty, is made of digits, signs, a point and an exponent mark, and
    reads back as the number it was printed from. *)
Class NumberPrinterFaithful (F : Type) `{NumberPrinter F} : Prop := {
  Number_toString_inj (x y : F) :
    Number_toString x = Number_toString y → x = y;
  Number_toString_units (x : F) :
    Forall (λ c, is_number_unit c = true) (Number_toString x);
  Number_toString_nonempty (x : F) : Number_toString x ≠ []
}.

Section Canonical.

(** [F] is the set of finite Number values, compared as [===] does, and
    [Number_toString] is ECMA-262 Number::toString on them: the shortest
    decimal text that reads back as the same number.  Both belong to the
    language runtime, not to this repository. *)
Context {F : Type} `{NumberPrinter F}.

Inductive Number : Type :=
| NaN
| PosInfinity
| NegInfinity
| Finite (x : F).

(** The values the module is written for: what [JSON.parse] can build.
    An object is the list of its own enumerable string-keyed properties
    in the order [Object.keys] reports them. *)
Inductive Value : Type :=
| VNull
| VBool (b : bool)
| VNumber (n : Number)
| VString (s : jsstring)
| VArray (items : list Value)
| VObject (props : list (jsstring * Value)).

Definition is_primitive (v : Value) : bool :=
  match v with VArray _ | VObject _ => false | _ => true end.

(** [JSON.stringify] on [null], a boolean, a number or a string
    (ECMA-262 SerializeJSONProperty). *)
Definition JSON_stringify_number (n : Number) : jsstring :=
  match n with
  | Finite x => Number_toString x
  | _ => lit "null"
  end.

Definition Object_keys {A} (props : list (jsstring * A)) : list jsstring :=
  map fst props.

(** Property read [o[key]] on own properties. *)
Fixpoint Get {A} (props : list (jsstring * A)) (key : jsstring) : option A :=
  match props with
  | [] => None
  | (k, v) :: rest => if decide (k = key) then Some v else Get rest key
  end.

(** A template literal prints a missing canonical value as [undefined]. *)
Definition template_value (o : option jsstring) : jsstring :=
  match o with Some s => s | None => lit "undefined" end.

(** [canonicalize] (canonical.ts, lines 7 to 27).  A primitive goes to
    [JSON.stringify]; an array is the join of its canonical elements; for an
    object the keys are sorted and each entry is [canonicalize(key)], a
    colon and [canonicalize(value[key])].  The values are made canonical
    where they stand in [props] and then read under the key, which is the
    same as reading first ([canonicalize_object] below) and lets the
    recursion be structural; [canonicalize(key)] is [JSON.stringify] of a
    string. *)
Fixpoint canonicalize (value : Value) : jsstring :=
  match value with
  | VNull => lit "null"
  | VBool true => lit "true"
  | VBool false => lit "false"
  | VNumber n => JSON_stringify_number n
  | VString s => QuoteJSONString s
  | VArray items =>
      let items := map canonicalize items in
      lit "[" ++ Array_join (lit ",") items ++ lit "]"
  | VObject props =>
      let keys := Array_sort (Object_keys props) in
      let canonical := map (λ kv, (kv.1, canonicalize kv.2)) props in
      let entries :=
        map (λ key, QuoteJSONString key ++ lit ":"
                      ++ template_value (Get canonical key)) keys in
      lit "{" ++ Array_join (lit ",") entries ++ lit "}"
  end.

(** [createHash('sha256').update(canonical).digest('hex')]. *)
Definition sha256Hex (input : Value) : jsstring :=
  let canonical := canonicalize input in
  hex_encode (SHA256.digest (utf8_encode canonical)).

(** The signature narrows [material] to a string, which is the [VString]
    case; the body passes whatever it is given on to [sha256Hex]. *)
Definition id32 (prefix : jsstring) (material : Value) : jsstring :=
  prefix ++ lit "_" ++ String_slice0 32 (sha256Hex material).

(** Two values with the same content: equal primitives, arrays equal
    element by element in order, objects with the same keys, each key bound
    to values with the same content; the order of the keys is left free. *)
Inductive same_content : Value → Value → Prop :=
| same_primitive v :
    is_primitive v = true → same_content v v
| same_array items1 items2 :
    Forall2 same_content items1 items2 →
    same_content (VArray items1) (VArray items2)
| same_object props1 props2 :
    Object_keys props1 ≡ₚ Object_keys props2 →
    (∀ key v1 v2, (key, v1) ∈ props1 → (key, v2) ∈ props2 →
                  same_content v1 v2) →
    same_content (VObject props1) (VObject props2).

(** The values the module is specified on: numbers are finite, strings are
    sequences of 16-bit code units, an object has no two properties of the
    same name. *)
Inductive supported : Value → Prop :=
| supported_null : supported VNull
| supported_bool b : supported (VBool b)
| supported_number x : supported (VNumber (Finite x))
| supported_string s : well_formed_units s → supported (VString s)
| supported_array items :
    Forall supported items → supported (VArray items)
| supported_object props :
    NoDup (Object_keys props) →
    Forall (λ kv, well_formed_units kv.1 ∧ supported kv.2) props →
    supported (VObject props).

(** No object has two properties of the same name. *)
Inductive unique_keys : Value → Prop :=
| unique_primitive v : is_primitive v = true → unique_keys v
| unique_array items : Forall unique_keys items → unique_keys (VArray items)
| unique_object props :
    NoDup (Object_keys props) →
    Forall (λ kv, unique_keys kv.2) props →
    unique_keys (VObject props).

Definition is_finite (n : Number) : bool :=
  match n with Finite _ => true | _ => false end.

End Canonical.

Arguments Number : clear implicits.
Arguments Value : clear implicits.
Arguments canonicalize {F _} value : simpl nomatch.

(** ** An instance: the non-negative integers

    Number::toString prints a non-negative integer up to 2^53, the range in
    which every integer is a Number, as its decimal digits.  This instance
    prints every natural number so: it is Number::toString on that range
    only.  A larger natural number need not be a Number, Number::toString
    prints the shortest digits that read back as the same Number, and from
    10^21 on it writes an exponent.  The examples below use the instance at
    small integers; the theorems hold for every printer. *)

Fixpoint uint_units (d : Decimal.uint) : jsstring :=
  match d with
  | Decimal.Nil => []
  | Decimal.D0 d => 48 :: uint_units d
  | Decimal.D1 d => 49 :: uint_units d
  | Decimal.D2 d => 50 :: uint_units d
  | Decimal.D3 d => 51 :: uint_units d
  | Decimal.D4 d => 52 :: uint_units d
  | Decimal.D5 d => 53 :: uint_units d
  | Decimal.D6 d => 54 :: uint_units d
  | Decimal.D7 d => 55 :: uint_units d
  | Decimal.D8 d => 56 :: uint_units d
  | Decimal.D9 d => 57 :: uint_units d
  end.

Global Instance Integer_toString : NumberPrinter N :=
  λ n, uint_units (N.to_uint n).

Definition int (n : N) : Value N := VNumber (Finite n).


(** ** Objects with identity: the heap

    [deepFreeze] changes the object it is given and [deepClone] makes new
    ones, and a value can hold the same object twice or hold itself, so
    arrays and objects live in a heap and a value refers to them.  A
    reference is an index into the heap; a new object is added at the end. *)

Module Heap.

(** The result of a call: a value, or the engine's [RangeError] when the
    recursion is deeper than the call stack allows.  [Stuck] stands for a
    reference to no object, which no ECMAScript program can hold. *)
Inductive outcome (A : Type) : Type :=
| Returned (a : A)
| RangeError
| Stuck.

Arguments Returned {A} a.
Arguments RangeError {A}.
Arguments Stuck {A}.

Global Instance outcome_ret : MRet outcome := λ A a, Returned a.

Global Instance outcome_bind : MBind outcome := λ A B f m,
  match m with
  | Returned a => f a
  | RangeError => RangeError
  | Stuck => Stuck
  end.

Global Instance outcome_fmap : FMap outcome := λ A B f m,
  match m with
  | Returned a => Returned (f a)
  | RangeError => RangeError
  | Stuck => Stuck
  end.

Abbreviation loc := nat (only parsing).

(** The name whose assignment on an ordinary object runs the setter of
    [Object.prototype] instead of creating a property (ECMA-262 B.2.2.1). *)
Definition proto_key : jsstring := lit "__proto__".

Section Model.

Context {F : Type} `{NumberPrinter F}.

Inductive value : Type :=
| Null
| Bool (b : bool)
| Num (n : Number F)
| Str (s : jsstring)
| Ref (l : loc).

(** An array holds its elements; an ordinary object holds its own
    enumerable string-keyed properties in the order of [Object.keys]. *)
Inductive body : Type :=
| ArrayOf (items : list value)
| ObjectOf (props : list (jsstring * value)).

Record object : Type := Obj { frozen : bool; content : body }.

Local Abbreviation heap := (list object).

(** The values [obj[key]] for [key] of [Object.keys(obj)], in that order. *)
Definition own_values (o : object) : list value :=
  match content o with
  | ArrayOf items => items
  | ObjectOf props => map snd props
  end.

(** [Object.freeze(obj)]. *)
Definition Object_freeze (l : loc) (h : heap) : heap :=
  alter (λ o, Obj true (content o)) l h.

(** Every change of an object (assigning, defining or deleting a property,
    [push], setting [length]) goes through its internal methods, and those
    of a frozen object refuse: the assignment is dropped, or throws in
    strict code, and the object stays as it is.  [f] is the change asked
    for. *)
Definition attempt (l : loc) (f : body → body) (h : heap) : heap :=
  match h !! l with
  | Some o => if frozen o then h else <[l := Obj false (f (content o))]> h
  | None => h
  end.

(** [o[key] = v] on an ordinary object whose prototype is
    [Object.prototype]: the key [__proto__] reaches the inherited setter
    and leaves the own properties alone, an own property is overwritten in
    place, a new one goes last ([deepClone] assigns the keys in the order
    [Object.keys] gave them, which is then their order in the clone). *)
Definition Set_property (key : jsstring) (v : value)
    (props : list (jsstring * value)) : list (jsstring * value) :=
  if decide (key = proto_key) then props
  else if decide (key ∈ Object_keys props)
  then map (λ kv, if decide (kv.1 = key) then (key, v) else kv) props
  else props ++ [(key, v)].

Definition assign (l : loc) (key : jsstring) (v : value) (h : heap) : heap :=
  attempt l (λ b, match b with
                  | ObjectOf props => ObjectOf (Set_property key v props)
                  | ArrayOf items => ArrayOf items
                  end) h.

(** CreateDataProperty at the next index of the array [Array.prototype.map]
    is filling. *)
Definition define_next (l : loc) (v : value) (h : heap) : heap :=
  attempt l (λ b, match b with
                  | ArrayOf items => ArrayOf (items ++ [v])
                  | ObjectOf props => ObjectOf props
                  end) h.

(** A loop whose body changes the heap. *)
Fixpoint for_each {A} (body : heap → A → outcome heap) (xs : list A)
    (h : heap) : outcome heap :=
  match xs with
  | [] => Returned h
  | x :: xs => h ← body h x; for_each body xs h
  end.

(** [canonicalize]: every call takes one frame of the [fuel] frames left. *)
Fixpoint canonicalize (fuel : nat) (h : heap) (value : value)
    : outcome jsstring :=
  match fuel with
  | O => RangeError
  | S fuel =>
      match value with
      | Null => Returned (lit "null")
      | Bool true => Returned (lit "true")
      | Bool false => Returned (lit "false")
      | Num n => Returned (JSON_stringify_number n)
      | Str s => Returned (QuoteJSONString s)
      | Ref l =>
          match h !! l with
          | None => Stuck
          | Some o =>
              match content o with
              | ArrayOf items =>
                  items ← mapM (canonicalize fuel h) items;
                  Returned (lit "[" ++ Array_join (lit ",") items ++ lit "]")
              | ObjectOf props =>
                  let keys := Array_sort (Object_keys props) in
                  entries ← mapM (λ key,
                    canonicalKey ← canonicalize fuel h (Str key);
                    canonicalValue ←
                      match Get props key with
                      | Some child => canonicalize fuel h child
                      | None => Returned (lit "undefined")
                      end;
                    Returned (canonicalKey ++ lit ":" ++ canonicalValue)) keys;
                  Returned (lit "{" ++ Array_join (lit ",") entries ++ lit "}")
              end
          end
      end
  end.

(** [deepFreeze]: freeze the object, then its property values in the order
    of [Object.keys]; the argument is returned.  The values are read before
    the loop: no step of [deepFreeze] changes a property. *)
Fixpoint deepFreeze (fuel : nat) (h : heap) (obj : value)
    : outcome (heap * value) :=
  match fuel with
  | O => RangeError
  | S fuel =>
      match obj with
      | Ref l =>
          match h !! l with
          | None => Stuck
          | Some o =>
              let h := Object_freeze l h in
              h ← for_each (λ h child, fst <$> deepFreeze fuel h child)
                    (own_values o) h;
              Returned (h, obj)
          end
      | _ => Returned (h, obj)
      end
  end.

(** [deepClone]: a primitive is returned; [obj.map] makes the new array and
    fills it with the clones of the elements; for an object, [cloned] is a
    new empty object that receives [cloned[key] = deepClone(obj[key])] for
    each key.  The properties are read before the loop: no step of
    [deepClone] changes an object that was there before the call. *)
Fixpoint deepClone (fuel : nat) (h : heap) (obj : value)
    : outcome (heap * value) :=
  match fuel with
  | O => RangeError
  | S fuel =>
      match obj with
      | Ref l =>
          match h !! l with
          | None => Stuck
          | Some o =>
              match content o with
              | ArrayOf items =>
                  let result := length h in
                  let h := h ++ [Obj false (ArrayOf [])] in
                  h ← for_each (λ h item,
                        '(h, v) ← deepClone fuel h item;
                        Returned (define_next result v h)) items h;
                  Returned (h, Ref result)
              | ObjectOf props =>
                  let cloned := length h in
                  let h := h ++ [Obj false (ObjectOf [])] in
                  h ← for_each (λ h kv,
                        '(h, v) ← deepClone fuel h kv.2;
                        Returned (assign cloned kv.1 v h)) props h;
                  Returned (h, Ref cloned)
              end
          end
      | _ => Returned (h, obj)
      end
  end.

(** The loops of the three functions, by name. *)
Definition entry (fuel : nat) (h : heap) (props : list (jsstring * value))
    (key : jsstring) : outcome jsstring :=
  canonicalKey ← canonicalize fuel h (Str key);
  canonicalValue ←
    match Get props key with
    | Some child => canonicalize fuel h child
    | None => Returned (lit "undefined")
    end;
  Returned (canonicalKey ++ lit ":" ++ canonicalValue).

Definition freeze_loop (fuel : nat) :=
  for_each (λ h child, fst <$> deepFreeze fuel h child).

Definition clone_items (fuel result : nat) :=
  for_each (λ h item,
    '(h, v) ← deepClone fuel h item; Returned (define_next result v h)).

Definition clone_props (fuel cloned : nat) :=
  for_each (λ h (kv : jsstring * value),
    '(h, v) ← deepClone fuel h kv.2; Returned (assign cloned kv.1 v h)).

(** *** What the properties are stated with *)

(** The objects a value leads to: itself and, through property values,
    everything below. *)
Inductive reachable (h : heap) : value → loc → Prop :=
| reachable_here l : reachable h (Ref l) l
| reachable_below l o child l' :
    h !! l = Some o → child ∈ own_values o → reachable h child l' →
    reachable h (Ref l) l'.

(** An object that is below itself. *)
Definition on_cycle (h : heap) (l : loc) : Prop :=
  ∃ o child, h !! l = Some o ∧ child ∈ own_values o ∧ reachable h child l.

Definition contains_cycle (h : heap) (v : value) : Prop :=
  ∃ l, reachable h v l ∧ on_cycle h l.

(** A reference is to an object of a heap of this size. *)
Definition value_ok (size : nat) (v : value) : Prop :=
  match v with Ref l => (l < size)%nat | _ => True end.

Definition body_ok (size : nat) (b : body) : Prop :=
  match b with
  | ArrayOf items => Forall (value_ok size) items
  | ObjectOf props =>
      NoDup (Object_keys props) ∧ Forall (value_ok size) (map snd props)
  end.

(** The heaps of ECMAScript programs: an object has no two properties of
    the same name, and every reference is to an object of the heap. *)
Definition well_formed (h : heap) : Prop :=
  Forall (body_ok (length h)) (map content h).

Global Instance value_ok_dec size v : Decision (value_ok size v).
Proof. destruct v; simpl; apply _. Defined.

Global Instance body_ok_dec size b : Decision (body_ok size b).
Proof. destruct b; simpl; apply _. Defined.

Global Instance well_formed_dec h : Decision (well_formed h).
Proof. unfold well_formed. apply _. Defined.

Definition frozen_at (h : heap) (l : loc) : Prop :=
  frozen <$> h !! l = Some true.

(** [h'] is [h] with more objects frozen and nothing else changed. *)
Definition more_frozen (h h' : heap) : Prop :=
  map content h = map content h' ∧ ∀ l, frozen_at h l → frozen_at h' l.

(** The tree a value of the heap reads as, when it has no cycle. *)
Inductive represents (h : heap) : value → Value F → Prop :=
| represents_null : represents h Null VNull
| represents_bool b : represents h (Bool b) (VBool b)
| represents_number n : represents h (Num n) (VNumber n)
| represents_string s : represents h (Str s) (VString s)
| represents_array l o items trees :
    h !! l = Some o → content o = ArrayOf items →
    Forall2 (represents h) items trees →
    represents h (Ref l) (VArray trees)
| represents_object l o props trees :
    h !! l = Some o → content o = ObjectOf props →
    Forall2 (λ kv kt, kv.1 = kt.1 ∧ represents h kv.2 kt.2) props trees →
    represents h (Ref l) (VObject trees).

(** [y] reads as the tree [t] through objects that are all at or after
    position [n] of the heap and not frozen: what a clone made on a heap of
    size [n] is to be. *)
Definition cloned_at (n : nat) (h : heap) (y : value) (t : Value F) : Prop :=
  represents h y t ∧
  ∀ l, reachable h y l → (n ≤ l)%nat ∧ frozen <$> h !! l = Some false.

Definition cloned_prop (n : nat) (h : heap) (kv : jsstring * value)
    (kt : jsstring * Value F) : Prop :=
  kv.1 = kt.1 ∧ cloned_at n h kv.2 kt.2.

(** What the rest of a program can do to the heap once a call has
    returned: try to change an object, freeze one, make a new one.  The
    prototype objects of the realm are not part of the heap: a read is a
    read of own properties. *)
Inductive mutation : Type :=
| Change (l : loc) (f : body → body)
| Freeze (l : loc)
| Allocate (o : object).

Definition apply_mutation (h : heap) (m : mutation) : heap :=
  match m with
  | Change l f => attempt l f h
  | Freeze l => Object_freeze l h
  | Allocate o => h ++ [o]
  end.

Definition run (ms : list mutation) (h : heap) : heap :=
  fold_left apply_mutation ms h.

End Model.

Arguments value : clear implicits.
Arguments body : clear implicits.
Arguments object : clear implicits.
Arguments mutation : clear implicits.

End Heap.

(** Nesting depth of a tree: the frames [canonicalize], [deepFreeze] and
    [deepClone] need below the first. *)
Fixpoint depth {F} (v : Value F) : nat :=
  match v with
  | VArray items => S (foldr Nat.max 0%nat (map depth items))
  | VObject props => S (foldr Nat.max 0%nat (map (λ kv, depth kv.2) props))
  | _ => 0%nat
  end.

(** The tree [deepClone] builds from a tree: the key [__proto__] is
    lost at every level. *)
Fixpoint without_proto {F} (v : Value F) : Value F :=
  match v with
  | VArray items => VArray (map without_proto items)
  | VObject props =>
      VObject (filter (λ kv, kv.1 ≠ Heap.proto_key)
                 (map (λ kv, (kv.1, without_proto kv.2)) props))
  | _ => v
  end.

(** [deepClone] with [fuel] frames clones every value that reads as [t]:
    it returns, the objects that were there are untouched, and the result
    reads as [t] without its [__proto__] keys through new objects. *)
Definition clones {F} `{NumberPrinter F} (fuel : nat) (t : Value F) : Prop :=
  ∀ (h : list (Heap.object F)) (x : Heap.value F),
    Heap.represents h x t →
    ∃ h' y, Heap.deepClone fuel h x = Heap.Returned (h', y) ∧
            h `prefix_of` h' ∧
            Heap.cloned_at (length h) h' y (without_proto t).

(** ** Reading a quoted string back

    The inverse of [quote_code_point], by which the quoting is shown to
    lose nothing. *)

Definition unhex (d : N) : N := if d <? 58 then d - 48 else d - 87.

(** Reads one code point off an escaped string. *)
Definition unquote_code_point (s : jsstring) : option (N * jsstring) :=
  match s with
  | [] => None
  | a :: t =>
      if a =? 0x5C then
        match t with
        | [] => None
        | b :: t' =>
            if b =? 0x62 then Some (0x08, t')
            else if b =? 0x74 then Some (0x09, t')
            else if b =? 0x6E then Some (0x0A, t')
            else if b =? 0x66 then Some (0x0C, t')
            else if b =? 0x72 then Some (0x0D, t')
            else if b =? 0x22 then Some (0x22, t')
            else if b =? 0x5C then Some (0x5C, t')
            else
              match t' with
              | x3 :: x2 :: x1 :: x0 :: t'' =>
                  Some (unhex x3 * 4096 + unhex x2 * 256
                        + unhex x1 * 16 + unhex x0, t'')
              | _ => None
              end
        end
      else if is_leading_surrogate a then
        match t with
        | d :: t' => Some (UTF16SurrogatePairToCodePoint a d, t')
        | [] => None
        end
      else Some (a, t)
  end.

(** What follows an element of a joined array: the separator and the
    other elements, or the closing code unit. *)
Definition rest_items (close : N) (items : list jsstring) (r : jsstring)
    : jsstring :=
  match items with
  | [] => close :: r
  | _ :: _ => 0x2C :: Array_join [0x2C] items ++ close :: r
  end.

(** The first code unit of a canonical string tells the kind of value. *)
Definition unit_kind (c : N) : N := if is_number_unit c then 0 else c.

Definition kind {F} (v : Value F) : N :=
  match v with
  | VNull => 110
  | VBool true => 116
  | VBool false => 102
  | VNumber _ => 0
  | VString _ => 34
  | VArray _ => 91
  | VObject _ => 123
  end.

(** The properties of an object as [canonicalize] writes them: by sorted
    key, each with the value read under that key. *)
Definition sorted_props {F} (props : list (jsstring * Value F))
    : list (jsstring * option (Value F)) :=
  map (λ key, (key, Get props key)) (Array_sort (Object_keys props)).

Definition write_prop {F} `{NumberPrinter F}
    (kv : jsstring * option (Value F)) : jsstring :=
  canonicalize (VString kv.1) ++ lit ":"
    ++ template_value (canonicalize <$> kv.2).

(** An element written by [ser] is read back, whatever comes after it. *)
Definition read_back {A} (ser : A → jsstring) (R : A → A → Prop)
    (ok : A → Prop) (x : A) : Prop :=
  ∀ y r1 r2, ok y → stops r1 → stops r2 →
             ser x ++ r1 = ser y ++ r2 → R x y ∧ r1 = r2.

(** What relates the properties of two objects with the same canonical
    string, in sorted order. *)
Definition same_prop {F} (p q : jsstring * option (Value F)) : Prop :=
  p.1 = q.1 ∧ ∃ v1 v2, p.2 = Some v1 ∧ q.2 = Some v2 ∧ same_content v1 v2.

Definition prop_ok {F} (p : jsstring * option (Value F)) : Prop :=
  well_formed_units p.1 ∧ ∃ v, p.2 = Some v ∧ supported v.

(** ** Values and heaps of the examples *)

(** The digest example of C1: [{"a":1,"b":2}] and [{"b":2,"a":1}]. *)
Definition ab_object : Value N := VObject [(lit "a", int 1); (lit "b", int 2)].
Definition ba_object : Value N := VObject [(lit "b", int 2); (lit "a", int 1)].

(** Two keys that code units and code points order differently: U+10000,
    the surrogate pair D800 DC00, and U+FF5E. *)
Definition astral_key : jsstring := [0xD800; 0xDC00].
Definition fullwidth_key : jsstring := [0xFF5E].

(** [const x = {}; x.self = x]. *)
Definition self_heap : list (Heap.object N) :=
  [Heap.Obj false (Heap.ObjectOf [(lit "self", Heap.Ref 0)])].

(** An object with the key [a] bound to the array [[1]]. *)
Definition nested_heap : list (Heap.object N) :=
  [Heap.Obj false (Heap.ObjectOf [(lit "a", Heap.Ref 1)]);
   Heap.Obj false (Heap.ArrayOf [Heap.Num (Finite 1)])].

Definition nested_tree : Value N := VObject [(lit "a", VArray [int 1])].

Definition nested_heap_frozen : list (Heap.object N) :=
  [Heap.Obj true (Heap.ObjectOf [(lit "a", Heap.Ref 1)]);
   Heap.Obj true (Heap.ArrayOf [Heap.Num (Finite 1)])].

(** [JSON.parse] of an object whose only key is [__proto__], with value 1. *)
Definition proto_heap : list (Heap.object N) :=
  [Heap.Obj false (Heap.ObjectOf [(Heap.proto_key, Heap.Num (Finite 1))])].

Definition proto_heap_frozen : list (Heap.object N) :=
  [Heap.Obj true (Heap.ObjectOf [(Heap.proto_key, Heap.Num (Finite 1))])].


(** ** Further notions *)

(** The value with [null] in the place of every number that is not
    finite. *)
Fixpoint nulled {F} (v : Value F) : Value F :=
  match v with
  | VNumber n => if is_finite n then v else VNull
  | VArray items => VArray (map nulled items)
  | VObject props => VObject (map (λ kv, (kv.1, nulled kv.2)) props)
  | _ => v
  end.

(** A mutation that does not aim at an object made after the first [n]:
    it changes or freezes one of the first [n] objects, or makes a new
    one. *)
Definition old_object {F} (n : nat) (m : Heap.mutation F) : Prop :=
  match m with
  | Heap.Change l _ | Heap.Freeze l => (l < n)%nat
  | Heap.Allocate _ => True
  end.

(** The heap after [deepClone] of the frozen object of [nested_heap]. *)
Definition nested_heap_cloned : list (Heap.object N) :=
  nested_heap_frozen ++
  [Heap.Obj false (Heap.ObjectOf [(lit "a", Heap.Ref 3)]);
   Heap.Obj false (Heap.ArrayOf [Heap.Num (Finite 1)])].
(** ** Test vectors for SHA-256 *)

Example sha256_abc :
  hex_encode (SHA256.digest (lit "abc"))
  = lit "ba7816bf8f01cfea414140de5dae2223b00361a396177a9cb410ff61f20015ad".
Proof. vm_compute. reflexivity. Qed.

Example sha256_empty :
  hex_encode (SHA256.digest [])
  = lit "e3b0c44298fc1c149afbf4c8996fb92427ae41e4649b934ca495991b7852b855".
Proof. vm_compute. reflexivity. Qed.

Example sha256_two_blocks :
  hex_encode (SHA256.digest (replicate 70 97))
  = lit "6bd5e5034855a11241f0dee8fc72850ffd9955b28347a86428b5fa19119f6ad0".
Proof. vm_compute. reflexivity. Qed.

(** ** The order on keys *)

Lemma lex_compare_eq x y : lex_compare x y = Eq ↔ x = y.
Proof.
  revert y. induction x as [|a x IH]; intros [|b y]; simpl; try easy.
  destruct (N.compare_spec a b) as [->| |]; [|split; intros; simplify_eq; lia..].
  rewrite IH. split; congruence.
Qed.

Lemma lex_compare_antisym x y : lex_compare y x = CompOpp (lex_compare x y).
Proof.
  revert y. induction x as [|a x IH]; intros [|b y]; simpl; try easy.
  rewrite (N.compare_antisym a b).
  destruct (a ?= b); simpl; auto.
Qed.

Lemma lex_compare_Lt_trans x y z :
  lex_compare x y = Lt → lex_compare y z = Lt → lex_compare x z = Lt.
Proof.
  revert y z. induction x as [|a x IH]; intros [|b y] [|c z]; simpl; try easy.
  destruct (N.compare_spec a b) as [->| |]; try easy.
  - destruct (N.compare_spec b c); try easy. apply IH.
  - destruct (N.compare_spec b c) as [->| |]; try easy; intros _ _.
    + destruct (N.compare_spec a c); auto; lia.
    + destruct (N.compare_spec a c); auto; lia.
Qed.

Global Instance unit_le_total : Total unit_le.
Proof.
  intros x y. unfold unit_le. rewrite (lex_compare_antisym x y).
  destruct (lex_compare x y); simpl; auto.
Qed.

Global Instance unit_le_trans : Transitive unit_le.
Proof.
  intros x y z. unfold unit_le. intros Hxy Hyz.
  destruct (lex_compare x y) eqn:E1; [|clear Hxy|done].
  - apply lex_compare_eq in E1 as ->. done.
  - destruct (lex_compare y z) eqn:E2; [| |done].
    + apply lex_compare_eq in E2 as ->. by rewrite E1.
    + by rewrite (lex_compare_Lt_trans _ _ _ E1 E2).
Qed.

Global Instance unit_le_antisym : AntiSymm (=) unit_le.
Proof.
  intros x y. unfold unit_le. rewrite (lex_compare_antisym x y).
  destruct (lex_compare x y) eqn:E; simpl; try done.
  by apply lex_compare_eq in E.
Qed.

Lemma Array_sort_Permutation keys : Array_sort keys ≡ₚ keys.
Proof. apply merge_sort_Permutation. Qed.

Lemma Array_sort_sorted keys : StronglySorted unit_le (Array_sort keys).
Proof. apply StronglySorted_merge_sort; apply _. Qed.

(** The sorted array depends on the keys only, not on their order. *)
Lemma Array_sort_order_irrelevant keys1 keys2 :
  keys1 ≡ₚ keys2 → Array_sort keys1 = Array_sort keys2.
Proof.
  intros Hp. apply (StronglySorted_unique unit_le); auto using Array_sort_sorted.
  by rewrite !Array_sort_Permutation.
Qed.

Lemma StringToCodePoints_cons2 c d rest :
  StringToCodePoints (c :: d :: rest)
  = if is_leading_surrogate c && is_trailing_surrogate d
    then UTF16SurrogatePairToCodePoint c d :: StringToCodePoints rest
    else c :: StringToCodePoints (d :: rest).
Proof. reflexivity. Qed.

Lemma StringToCodePoints_no_surrogates s :
  no_surrogates s → StringToCodePoints s = s.
Proof.
  induction 1 as [|c s Hc Hs IH]; [done|].
  destruct s as [|d s]; [done|]. rewrite StringToCodePoints_cons2.
  replace (is_leading_surrogate c) with false; [cbn [andb]; by rewrite IH|].
  unfold is_surrogate, is_leading_surrogate in *.
  destruct (0xD800 <=? c) eqn:E1, (c <=? 0xDFFF) eqn:E2,
    (c <=? 0xDBFF) eqn:E3; simpl in *; try done.
  apply N.leb_le in E3. apply N.leb_gt in E2. lia.
Qed.

(** ** Induction on values and the relations the properties are stated with *)

Section ValueFacts.

Context {F : Type} `{NumberPrinter F}.

Lemma Value_nested_ind (P : Value F → Prop) :
  P VNull →
  (∀ b, P (VBool b)) →
  (∀ n, P (VNumber n)) →
  (∀ s, P (VString s)) →
  (∀ items, Forall P items → P (VArray items)) →
  (∀ props, Forall (λ kv, P kv.2) props → P (VObject props)) →
  ∀ v, P v.
Proof.
  intros Hnull Hbool Hnum Hstr Harr Hobj.
  fix IH 1. intros [|b|n|s|items|props].
  - exact Hnull.
  - exact (Hbool b).
  - exact (Hnum n).
  - exact (Hstr s).
  - apply Harr. induction items as [|v items IHitems].
    + constructor.
    + constructor; [exact (IH v)|exact IHitems].
  - apply Hobj. induction props as [|[k v] props IHprops].
    + constructor.
    + constructor; [exact (IH v)|exact IHprops].
Qed.

Lemma Get_elem_of {A} (props : list (jsstring * A)) key :
  key ∈ Object_keys props → ∃ v, Get props key = Some v ∧ (key, v) ∈ props.
Proof.
  induction props as [|[k v] props IH]; simpl.
  - by intros ?%elem_of_nil.
  - intros Hin. destruct (decide (k = key)) as [->|Hne].
    + exists v. split; [done|left].
    + apply elem_of_cons in Hin as [?|Hin]; [done|].
      destruct (IH Hin) as (w & ? & ?). exists w. split; [done|by right].
Qed.

Lemma Get_fmap {A B} (f : A → B) (props : list (jsstring * A)) key :
  Get (map (λ kv, (kv.1, f kv.2)) props) key = f <$> Get props key.
Proof.
  induction props as [|[k v] props IH]; simpl; [done|].
  by destruct (decide (k = key)).
Qed.

(** The object case of [canonicalize] reads every value as the source
    does: [canonicalize(value[key])] for each sorted key. *)
Lemma canonicalize_object props :
  canonicalize (VObject props)
  = lit "{" ++ Array_join (lit ",")
      (map (λ key, canonicalize (VString key) ++ lit ":"
                   ++ template_value (canonicalize <$> Get props key))
           (Array_sort (Object_keys props))) ++ lit "}".
Proof.
  cbn [canonicalize]. do 3 f_equal.
  apply map_ext. intros key. by rewrite Get_fmap.
Qed.

Lemma canonicalize_array items :
  canonicalize (VArray items)
  = lit "[" ++ Array_join (lit ",") (map canonicalize items) ++ lit "]".
Proof. reflexivity. Qed.

Lemma map_related {A B} (R : A → A → Prop) (f : A → B) l1 l2 :
  Forall2 R l1 l2 →
  Forall (λ x, ∀ y, R x y → f x = f y) l1 →
  map f l1 = map f l2.
Proof.
  induction 1 as [|x y l1 l2 Hxy Hl IH]; [done|].
  intros [Hx Hrest]%Forall_cons. simpl. f_equal; auto.
Qed.

Lemma same_content_canonicalize v1 :
  ∀ v2, same_content v1 v2 → canonicalize v1 = canonicalize v2.
Proof.
  induction v1 as [| | | |items IH|props IH] using Value_nested_ind;
    intros v2 Hsame; inversion Hsame; subst; try done.
  - rewrite !canonicalize_array. do 3 f_equal. eauto using map_related.
  - rename props2 into props'.
    match goal with H : _ ≡ₚ _ |- _ => rename H into Hperm end.
    match goal with H : ∀ key v1 v2, _ |- _ => rename H into Hvals end.
    rewrite !canonicalize_object.
    rewrite <-(Array_sort_order_irrelevant _ _ Hperm). do 3 f_equal.
    apply map_ext_in. intros key Hin%list_elem_of_In.
    rewrite Array_sort_Permutation in Hin.
    destruct (Get_elem_of props key Hin) as (v1 & -> & Hv1).
    rewrite Hperm in Hin.
    destruct (Get_elem_of props' key Hin) as (v2 & -> & Hv2).
    simpl. do 3 f_equal.
    rewrite Forall_forall in IH. apply (IH (key, v1)); [done|]. eauto.
Qed.

End ValueFacts.

(** ** The shape of a hex digest *)

Lemma land_255_lt a : N.land a 0xFF < 256.
Proof.
  change 0xFF with (N.ones 8). rewrite N.land_ones.
  apply N.mod_lt. done.
Qed.

Lemma be_bytes_4 x :
  SHA256.be_bytes 4 x
  = [N.land (N.shiftr x 24) 0xFF; N.land (N.shiftr x 16) 0xFF;
     N.land (N.shiftr x 8) 0xFF; N.land x 0xFF].
Proof. reflexivity. Qed.

Lemma state_bytes_length s : length (SHA256.state_bytes s) = 32%nat.
Proof. reflexivity. Qed.

Lemma state_bytes_lt s : Forall (λ b, b < 256) (SHA256.state_bytes s).
Proof.
  unfold SHA256.state_bytes. cbn [flat_map]. rewrite !be_bytes_4.
  cbn [app]. repeat constructor; apply land_255_lt.
Qed.

Lemma digest_length msg : length (SHA256.digest msg) = 32%nat.
Proof. apply state_bytes_length. Qed.

Lemma digest_lt msg : Forall (λ b, b < 256) (SHA256.digest msg).
Proof. apply state_bytes_lt. Qed.

Lemma hex_digit_lower n : n < 16 → is_lower_hex (hex_digit n).
Proof.
  intros Hn. unfold hex_digit, is_lower_hex.
  destruct (N.ltb_spec n 10); lia.
Qed.

Lemma hex_encode_length bytes :
  length (hex_encode bytes) = (2 * length bytes)%nat.
Proof. induction bytes as [|b bytes IH]; simpl; lia. Qed.

Lemma hex_encode_lower bytes :
  Forall (λ b, b < 256) bytes → Forall is_lower_hex (hex_encode bytes).
Proof.
  induction 1 as [|b bytes Hb _ IH]; simpl; [constructor|].
  constructor; [|constructor; [|done]]; apply hex_digit_lower.
  - apply N.Div0.div_lt_upper_bound. lia.
  - apply N.mod_lt. done.
Qed.

Section DigestFacts.

Context {F : Type} `{NumberPrinter F}.

Lemma sha256Hex_length (input : Value F) : length (sha256Hex input) = 64%nat.
Proof.
  unfold sha256Hex. by rewrite hex_encode_length, digest_length.
Qed.

Lemma sha256Hex_lower (input : Value F) : Forall is_lower_hex (sha256Hex input).
Proof. apply hex_encode_lower, digest_lt. Qed.

End DigestFacts.

(** ** Facts about the heap model *)

Section HeapFacts.

Context {F : Type} `{NumberPrinter F}.

Implicit Types (h : list (Heap.object F)) (v obj child : Heap.value F).
Implicit Types (o : Heap.object F) (l : Heap.loc).

Import Heap.

Lemma bind_Returned {A B} (m : outcome A) (f : A → outcome B) b :
  m ≫= f = Returned b ↔ ∃ a, m = Returned a ∧ f a = Returned b.
Proof.
  destruct m; simpl; split; try (intros (? & ? & ?)); try done; eauto.
  by simplify_eq.
Qed.

Lemma fmap_Returned {A B} (m : outcome A) (f : A → B) b :
  f <$> m = Returned b ↔ ∃ a, m = Returned a ∧ b = f a.
Proof.
  destruct m; simpl; split; try (intros (? & ? & ?)); try done.
  - intros [= <-]. eauto.
  - by simplify_eq.
Qed.

Lemma same_content_lookup h h' l o :
  map content h = map content h' → h !! l = Some o →
  ∃ o', h' !! l = Some o' ∧ content o' = content o.
Proof.
  intros Heq Hl.
  assert (map content h' !! l = Some (content o)) as Hl'.
  { rewrite <-Heq. change (map content h) with (content <$> h).
    by rewrite list_lookup_fmap, Hl. }
  change (map content h') with (content <$> h') in Hl'.
  rewrite list_lookup_fmap in Hl'.
  destruct (h' !! l) as [o'|]; simplify_eq/=. eauto.
Qed.

Lemma own_values_content o o' :
  content o' = content o → own_values o' = own_values o.
Proof. unfold own_values. by intros ->. Qed.

Lemma reachable_same_content h h' v l :
  map content h = map content h' → reachable h v l → reachable h' v l.
Proof.
  intros Heq. induction 1 as [l|l o child l' Hl Hin _ IH].
  - constructor.
  - destruct (same_content_lookup _ _ _ _ Heq Hl) as (o' & Hl' & Hc).
    apply (reachable_below _ _ o' child); [done| |done].
    by rewrite (own_values_content _ _ Hc).
Qed.

Lemma on_cycle_same_content h h' l :
  map content h = map content h' → on_cycle h l → on_cycle h' l.
Proof.
  intros Heq (o & child & Hl & Hin & Hreach).
  destruct (same_content_lookup _ _ _ _ Heq Hl) as (o' & Hl' & Hc).
  exists o', child. rewrite (own_values_content _ _ Hc).
  eauto using reachable_same_content.
Qed.

Lemma contains_cycle_same_content h h' v :
  map content h = map content h' → contains_cycle h v → contains_cycle h' v.
Proof.
  intros Heq (l & ? & ?). exists l.
  eauto using reachable_same_content, on_cycle_same_content.
Qed.

Lemma well_formed_same_content h h' :
  map content h = map content h' → well_formed h → well_formed h'.
Proof.
  unfold well_formed. intros Heq. rewrite <-Heq.
  by rewrite <-(length_map content h), Heq, length_map.
Qed.

Global Instance more_frozen_refl : Reflexive (more_frozen (F:=F)).
Proof. by intros h. Qed.

Global Instance more_frozen_trans : Transitive (more_frozen (F:=F)).
Proof.
  intros h1 h2 h3 [Hc1 Hf1] [Hc2 Hf2]. split; [congruence|auto].
Qed.

Lemma Object_freeze_content l h :
  map content (Object_freeze l h) = map content h.
Proof.
  unfold Object_freeze. revert l.
  induction h as [|o h IH]; intros [|l]; simpl; f_equal; auto.
  apply IH.
Qed.

Lemma Object_freeze_lookup l h o :
  h !! l = Some o → Object_freeze l h !! l = Some (Obj true (content o)).
Proof.
  unfold Object_freeze. intros Hl.
  by rewrite list_lookup_alter_eq, Hl.
Qed.

Lemma Object_freeze_lookup_ne l l' h :
  l ≠ l' → Object_freeze l h !! l' = h !! l'.
Proof. unfold Object_freeze. apply list_lookup_alter_ne. Qed.

Lemma Object_freeze_more_frozen l h : more_frozen h (Object_freeze l h).
Proof.
  split; [by rewrite Object_freeze_content|].
  intros l' Hf. unfold frozen_at in *.
  destruct (decide (l = l')) as [->|Hne].
  - destruct (h !! l') as [o|] eqn:Hl; [|done].
    by rewrite (Object_freeze_lookup _ _ _ Hl).
  - by rewrite Object_freeze_lookup_ne.
Qed.

Lemma reachable_more_frozen h h' v l :
  more_frozen h h' → reachable h v l → reachable h' v l.
Proof. intros [Heq _]. by apply reachable_same_content. Qed.

(** *** [deepFreeze] *)

Lemma deepFreeze_S fuel h obj :
  deepFreeze (S fuel) h obj
  = match obj with
    | Ref l =>
        match h !! l with
        | None => Stuck
        | Some o =>
            h ← freeze_loop fuel (own_values o) (Object_freeze l h);
            Returned (h, obj)
        end
    | _ => Returned (h, obj)
    end.
Proof. reflexivity. Qed.

Lemma freeze_loop_returned fuel :
  (∀ h obj h' obj', deepFreeze fuel h obj = Returned (h', obj') →
     more_frozen h h' ∧ ∀ l, reachable h obj l → frozen_at h' l) →
  ∀ children h h', freeze_loop fuel children h = Returned h' →
     more_frozen h h' ∧
     ∀ child l, child ∈ children → reachable h child l → frozen_at h' l.
Proof.
  intros IH. induction children as [|c children IHc]; intros h h' Hrun.
  - injection Hrun as <-. split; [done|].
    by intros ?? ?%elem_of_nil.
  - unfold freeze_loop in Hrun. simpl in Hrun.
    apply bind_Returned in Hrun as (h1 & Hc & Hrest).
    apply fmap_Returned in Hc as ([h1' obj'] & Hc & ->). simpl in *.
    destruct (IH _ _ _ _ Hc) as [Hmf1 Hfr1].
    destruct (IHc _ _ Hrest) as [Hmf2 Hfr2].
    split; [by etrans|].
    intros child l [->|Hin]%elem_of_cons Hreach.
    + apply Hmf2. auto.
    + apply (Hfr2 child); [done|]. by apply (reachable_more_frozen h).
Qed.

Lemma deepFreeze_returned fuel :
  ∀ h obj h' obj', deepFreeze fuel h obj = Returned (h', obj') →
    more_frozen h h' ∧ ∀ l, reachable h obj l → frozen_at h' l.
Proof.
  induction fuel as [|fuel IH]; intros h obj h' obj' Hrun; [done|].
  rewrite deepFreeze_S in Hrun.
  destruct obj as [|b|n|s|l0];
    try (simplify_eq/=; split; [done|]; by inversion 1).
  destruct (h !! l0) as [o|] eqn:Hl0; [|done].
  apply bind_Returned in Hrun as (h1 & Hloop & Hret). simplify_eq/=.
  destruct (freeze_loop_returned fuel IH _ _ _ Hloop) as [Hmf Hfr].
  pose proof (Object_freeze_more_frozen l0 h) as Hmf0.
  split; [by etrans|].
  intros l Hreach. inversion Hreach as [|? o' child ? Hl Hin Hbelow]; subst.
  - apply Hmf. unfold frozen_at.
    by rewrite (Object_freeze_lookup _ _ _ Hl0).
  - simplify_eq. apply (Hfr child); [done|].
    by apply (reachable_more_frozen h).
Qed.

Lemma deepFreeze_returns_argument fuel h obj h' obj' :
  deepFreeze fuel h obj = Returned (h', obj') → obj' = obj.
Proof.
  destruct fuel as [|fuel]; [done|]. rewrite deepFreeze_S.
  destruct obj as [|b|n|s|l0]; try (by intros [= _ <-]).
  destruct (h !! l0); [|done].
  intros (h1 & _ & Hret)%bind_Returned. by simplify_eq/=.
Qed.

Lemma represents_same_content h h' t :
  map content h = map content h' →
  ∀ v, represents h v t → represents h' v t.
Proof.
  intros Heq.
  induction t as [| | | |trees IH|trees IH] using Value_nested_ind;
    intros v Hrep; inversion Hrep as [| | | |l o items ? Hl Hc Hall
                                      |l o props ? Hl Hc Hall]; subst;
    try constructor.
  - destruct (same_content_lookup _ _ _ _ Heq Hl) as (o' & Hl' & Hc').
    apply (represents_array _ l o' items); [done|congruence|].
    clear Hrep Hl Hc. induction Hall as [|c t items trees Hct _ IHall];
      [constructor|].
    apply Forall_cons in IH as [IHt IHtrees]. constructor; auto.
  - destruct (same_content_lookup _ _ _ _ Heq Hl) as (o' & Hl' & Hc').
    apply (represents_object _ l o' props); [done|congruence|].
    clear Hrep Hl Hc. induction Hall as [|c t props trees [Hk Hct] _ IHall];
      [constructor|].
    apply Forall_cons in IH as [IHt IHtrees]. constructor; auto.
Qed.

Lemma depth_children_lt {A} (f : A → nat) (xs : list A) (n : nat) :
  (foldr Nat.max 0 (map f xs) < n)%nat → Forall (λ x, (f x < n)%nat) xs.
Proof.
  induction xs as [|x xs IH]; simpl; [constructor|].
  intros Hlt. constructor; [lia|]. apply IH. lia.
Qed.

Lemma represents_props_values h (props : list (jsstring * value F)) trees :
  Forall2 (λ kv kt, kv.1 = kt.1 ∧ represents h kv.2 kt.2) props trees →
  Forall2 (represents h) (map snd props) (map snd trees)
  ∧ Object_keys props = Object_keys trees.
Proof.
  induction 1 as [|kv kt props trees [Hk Hv] _ [IH1 IH2]]; simpl.
  - by split; [constructor|].
  - split; [by constructor|]. unfold Object_keys in *. simpl. congruence.
Qed.

Lemma freeze_loop_terminates fuel trees :
  Forall (λ t, ∀ h v, represents h v t →
               ∃ h', deepFreeze fuel h v = Returned (h', v)) trees →
  ∀ items h, Forall2 (represents h) items trees →
             ∃ h', freeze_loop fuel items h = Returned h'.
Proof.
  induction 1 as [|t trees Ht _ IH]; intros items h Hall;
    inversion Hall as [|c ? items' ? Hc Hrest]; subst.
  - by exists h.
  - destruct (Ht h c Hc) as (h1 & Hrun).
    destruct (deepFreeze_returned _ _ _ _ _ Hrun) as [[Heq _] _].
    destruct (IH items' h1) as (h' & Hloop).
    { eapply Forall2_impl; [done|]. intros ??.
      by apply represents_same_content. }
    exists h'. unfold freeze_loop in *. simpl. by rewrite Hrun.
Qed.

(** On a value without cycles [deepFreeze] returns, with its argument, as
    soon as the stack is deeper than the value. *)
Lemma deepFreeze_terminates t :
  ∀ fuel h v, represents h v t → (depth t < fuel)%nat →
              ∃ h', deepFreeze fuel h v = Returned (h', v).
Proof.
  induction t as [| | | |trees IH|trees IH] using Value_nested_ind;
    intros [|fuel] h v Hrep Hfuel; try lia;
    inversion Hrep as [| | | |l o items ? Hl Hc Hall
                       |l o props ? Hl Hc Hall]; subst;
    rewrite deepFreeze_S; eauto; rewrite Hl.
  - simpl in Hfuel. apply Nat.succ_lt_mono, depth_children_lt in Hfuel.
    destruct (freeze_loop_terminates fuel trees) with
      (items := own_values o) (h := Object_freeze l h) as (h' & ->).
    + rewrite Forall_forall in IH, Hfuel. apply Forall_forall.
      intros t Hin h0 v0 Hrep0. apply (IH t Hin); auto.
    + unfold own_values. rewrite Hc.
      eapply Forall2_impl; [done|]. intros ??.
      apply represents_same_content. by rewrite Object_freeze_content.
    + simpl. eauto.
  - simpl in Hfuel. apply Nat.succ_lt_mono in Hfuel.
    rewrite <-(map_map snd depth) in Hfuel.
    apply depth_children_lt in Hfuel.
    destruct (represents_props_values _ _ _ Hall) as [Hvals _].
    destruct (freeze_loop_terminates fuel (map snd trees)) with
      (items := own_values o) (h := Object_freeze l h) as (h' & ->).
    + apply List.Forall_map. apply List.Forall_map in Hfuel.
      rewrite Forall_forall in IH, Hfuel. apply Forall_forall.
      intros kt Hin h0 v0 Hrep0. apply (IH kt Hin); auto.
    + unfold own_values. rewrite Hc.
      eapply Forall2_impl; [done|]. intros ??.
      apply represents_same_content. by rewrite Object_freeze_content.
    + simpl. eauto.
Qed.

(** *** Cycles *)

Lemma reachable_is_ref h v l : reachable h v l → ∃ l0, v = Ref l0.
Proof. inversion 1; eauto. Qed.

Lemma cycle_below h l0 o :
  contains_cycle h (Ref l0) → h !! l0 = Some o →
  ∃ child, child ∈ own_values o ∧ contains_cycle h child.
Proof.
  intros (l & Hreach & Hcyc) Hl0.
  inversion Hreach as [|? o' child ? Hl Hin Hbelow]; subst.
  - destruct Hcyc as (o' & child & Hl & Hin & Hback). simplify_eq.
    exists child. split; [done|]. exists l. split; [done|].
    red. eauto.
  - simplify_eq. exists child. split; [done|]. by exists l.
Qed.

Lemma contains_cycle_valid h v :
  contains_cycle h v → ∃ l0, v = Ref l0 ∧ is_Some (h !! l0).
Proof.
  intros (l & Hreach & (o & child & Hl & _)).
  inversion Hreach; subst; eauto.
Qed.

Lemma freeze_loop_cycle fuel :
  (∀ h v, contains_cycle h v → ∀ r, deepFreeze fuel h v ≠ Returned r) →
  ∀ children h,
    (∃ child, child ∈ children ∧ contains_cycle h child) →
    ∀ r, freeze_loop fuel children h ≠ Returned r.
Proof.
  intros IH. induction children as [|c children IHc];
    intros h (child & Hin & Hcyc) r Hrun.
  - by apply elem_of_nil in Hin.
  - unfold freeze_loop in Hrun. simpl in Hrun.
    apply bind_Returned in Hrun as (h1 & Hc & Hrest).
    apply fmap_Returned in Hc as ([h1' obj'] & Hc & ->). simpl in *.
    apply elem_of_cons in Hin as [->|Hin]; [by eapply IH|].
    destruct (deepFreeze_returned _ _ _ _ _ Hc) as [[Heq _] _].
    eapply IHc; [|done]. exists child. split; [done|].
    by eapply contains_cycle_same_content.
Qed.

(** [deepFreeze] keeps no record of the objects it has visited: below an
    object that is below itself the recursion never comes back. *)
Lemma deepFreeze_cycle fuel :
  ∀ h v, contains_cycle h v → ∀ r, deepFreeze fuel h v ≠ Returned r.
Proof.
  induction fuel as [|fuel IH]; intros h v Hcyc r; [done|].
  rewrite deepFreeze_S.
  destruct (contains_cycle_valid _ _ Hcyc) as (l0 & -> & [o Hl0]).
  rewrite Hl0. intros (h1 & Hloop & _)%bind_Returned.
  destruct (cycle_below _ _ _ Hcyc Hl0) as (child & Hin & Hchild).
  eapply (freeze_loop_cycle fuel IH); [|done].
  exists child. split; [done|].
  eapply contains_cycle_same_content; [|done].
  by rewrite Object_freeze_content.
Qed.

Lemma well_formed_own_values h l o :
  well_formed h → h !! l = Some o →
  Forall (value_ok (length h)) (own_values o).
Proof.
  intros Hwf Hl. unfold well_formed in Hwf. rewrite Forall_forall in Hwf.
  assert (content o ∈ map content h) as Hin.
  { change (map content h) with (content <$> h).
    apply list_elem_of_fmap. exists o. split; [done|].
    by eapply list_elem_of_lookup_2. }
  specialize (Hwf _ Hin). unfold own_values.
  destruct (content o); simpl in Hwf; [done|]. by destruct Hwf.
Qed.

Lemma value_ok_lookup h v :
  value_ok (length h) v → ∀ l, v = Ref l → is_Some (h !! l).
Proof. intros Hok l ->. by apply lookup_lt_is_Some. Qed.

Lemma freeze_loop_not_stuck fuel :
  (∀ h v, well_formed h → value_ok (length h) v →
          deepFreeze fuel h v ≠ Stuck) →
  ∀ children h,
    well_formed h → Forall (value_ok (length h)) children →
    freeze_loop fuel children h ≠ Stuck.
Proof.
  intros IH. induction children as [|c children IHc];
    intros h Hwf [Hc Hrest]%Forall_cons_1 || intros h Hwf _; [done|].
  unfold freeze_loop. simpl.
  destruct (deepFreeze fuel h c) as [[h1 obj']| |] eqn:Hrun; simpl; [|done|].
  - destruct (deepFreeze_returned _ _ _ _ _ Hrun) as [[Heq _] _].
    apply IHc.
    + by eapply well_formed_same_content.
    + by rewrite <-(length_map content h1), <-Heq, length_map.
  - by apply IH in Hrun.
Qed.

Lemma deepFreeze_not_stuck fuel :
  ∀ h v, well_formed h → value_ok (length h) v →
         deepFreeze fuel h v ≠ Stuck.
Proof.
  induction fuel as [|fuel IH]; intros h v Hwf Hok; [done|].
  rewrite deepFreeze_S. destruct v as [|b|n|s|l0]; try done.
  destruct (value_ok_lookup _ _ Hok l0 eq_refl) as [o Hl0]. rewrite Hl0.
  pose proof (well_formed_own_values _ _ _ Hwf Hl0) as Hvals.
  pose proof (Object_freeze_content l0 h) as Heq.
  destruct (freeze_loop fuel (own_values o) (Object_freeze l0 h))
    as [h1| |] eqn:Hloop; simpl; [done|done|].
  intros _. eapply (freeze_loop_not_stuck fuel IH); [| |exact Hloop].
  - by eapply well_formed_same_content.
  - by rewrite <-(length_map content (Object_freeze l0 h)), Heq, length_map.
Qed.

(** *** [canonicalize] on the heap *)

Lemma mapM_cons {A B} (f : A → outcome B) x xs :
  mapM f (x :: xs) = y ← f x; ys ← mapM f xs; Returned (y :: ys).
Proof. reflexivity. Qed.

Lemma mapM_Returned {A B} (f : A → outcome B) xs ys :
  mapM f xs = Returned ys ↔ Forall2 (λ x y, f x = Returned y) xs ys.
Proof.
  revert ys. induction xs as [|x xs IH]; intros ys.
  - split; [intros [= <-]; constructor|by inversion 1].
  - rewrite mapM_cons. split.
    + intros (y & Hy & (ys' & Hys & [= <-])%bind_Returned)%bind_Returned.
      constructor; [done|by apply IH].
    + inversion 1 as [|? y ? ys' Hy Hys]; subst. rewrite Hy. simpl.
      apply IH in Hys. by rewrite Hys.
Qed.

Lemma mapM_not_stuck {A B} (f : A → outcome B) xs :
  Forall (λ x, f x ≠ Stuck) xs → mapM f xs ≠ Stuck.
Proof.
  induction 1 as [|x xs Hx _ IH]; [done|]. rewrite mapM_cons.
  destruct (f x); simpl; [|done..]. by destruct (mapM f xs).
Qed.

Lemma canonicalize_S fuel h v :
  canonicalize (S fuel) h v
  = match v with
    | Null => Returned (lit "null")
    | Bool true => Returned (lit "true")
    | Bool false => Returned (lit "false")
    | Num n => Returned (JSON_stringify_number n)
    | Str s => Returned (QuoteJSONString s)
    | Ref l =>
        match h !! l with
        | None => Stuck
        | Some o =>
            match content o with
            | ArrayOf items =>
                items ← mapM (canonicalize fuel h) items;
                Returned (lit "[" ++ Array_join (lit ",") items ++ lit "]")
            | ObjectOf props =>
                entries ← mapM (entry fuel h props)
                             (Array_sort (Object_keys props));
                Returned (lit "{" ++ Array_join (lit ",") entries ++ lit "}")
            end
        end
    end.
Proof. reflexivity. Qed.

Lemma Get_NoDup {A} (props : list (jsstring * A)) key (v : A) :
  NoDup (Object_keys props) → (key, v) ∈ props → Get props key = Some v.
Proof.
  induction props as [|[k w] props IH]; simpl.
  - by intros _ ?%elem_of_nil.
  - intros [Hk Hnd]%NoDup_cons [[= -> ->]|Hin]%elem_of_cons.
    + by rewrite decide_True.
    + rewrite decide_False; [auto|]. intros ->. apply Hk.
      unfold Object_keys. change (map fst props) with (fst <$> props).
      apply list_elem_of_fmap. by exists (key, v).
Qed.

Lemma Get_Some_elem_of {A} (props : list (jsstring * A)) key (v : A) :
  Get props key = Some v → (key, v) ∈ props.
Proof.
  induction props as [|[k w] props IH]; simpl; [done|].
  destruct (decide (k = key)) as [->|]; [intros [= ->]; left|right; auto].
Qed.

Lemma well_formed_NoDup h l o props :
  well_formed h → h !! l = Some o → content o = ObjectOf props →
  NoDup (Object_keys props).
Proof.
  intros Hwf Hl Hc. unfold well_formed in Hwf. rewrite Forall_forall in Hwf.
  assert (content o ∈ map content h) as Hin.
  { change (map content h) with (content <$> h).
    apply list_elem_of_fmap. exists o. split; [done|].
    by eapply list_elem_of_lookup_2. }
  specialize (Hwf _ Hin). rewrite Hc in Hwf. by destruct Hwf.
Qed.

(** [canonicalize] keeps no record of the objects it has visited either. *)
Lemma canonicalize_cycle fuel :
  ∀ h v, well_formed h → contains_cycle h v →
         ∀ s, canonicalize fuel h v ≠ Returned s.
Proof.
  induction fuel as [|fuel IH]; intros h v Hwf Hcyc s; [done|].
  rewrite canonicalize_S.
  destruct (contains_cycle_valid _ _ Hcyc) as (l0 & -> & [o Hl0]).
  rewrite Hl0.
  destruct (cycle_below _ _ _ Hcyc Hl0) as (child & Hin & Hchild).
  unfold own_values in Hin.
  destruct (content o) as [items|props] eqn:Hc.
  - intros (ys & Hys & _)%bind_Returned. apply mapM_Returned in Hys.
    apply list_elem_of_lookup in Hin as [i Hi].
    destruct (Forall2_lookup_l _ _ _ _ _ Hys Hi) as (y & _ & Hy).
    by eapply IH.
  - intros (ys & Hys & _)%bind_Returned. apply mapM_Returned in Hys.
    change (map snd props) with (snd <$> props) in Hin.
    apply list_elem_of_fmap in Hin as ([key c] & -> & Hin). simpl in *.
    assert (key ∈ Array_sort (Object_keys props)) as Hkey.
    { rewrite Array_sort_Permutation. unfold Object_keys.
      change (map fst props) with (fst <$> props).
      apply list_elem_of_fmap. by exists (key, c). }
    apply list_elem_of_lookup in Hkey as [i Hi].
    destruct (Forall2_lookup_l _ _ _ _ _ Hys Hi) as (y & _ & Hy).
    unfold entry in Hy.
    apply bind_Returned in Hy as (ck & _ & Hy).
    apply bind_Returned in Hy as (cv & Hcv & _).
    rewrite (Get_NoDup props key c) in Hcv;
      [by eapply IH|by eapply well_formed_NoDup|done].
Qed.

Lemma canonicalize_not_stuck fuel :
  ∀ h v, well_formed h → value_ok (length h) v →
         canonicalize fuel h v ≠ Stuck.
Proof.
  induction fuel as [|fuel IH]; intros h v Hwf Hok; [done|].
  rewrite canonicalize_S. destruct v as [|[]|n|s|l0]; try done.
  destruct (value_ok_lookup _ _ Hok l0 eq_refl) as [o Hl0]. rewrite Hl0.
  pose proof (well_formed_own_values _ _ _ Hwf Hl0) as Hvals.
  unfold own_values in Hvals.
  destruct (content o) as [items|props] eqn:Hc.
  - assert (mapM (canonicalize fuel h) items ≠ Stuck) as Hne.
    { apply mapM_not_stuck. eapply Forall_impl; [done|]. simpl. auto. }
    by destruct (mapM (canonicalize fuel h) items).
  - assert (mapM (entry fuel h props) (Array_sort (Object_keys props))
            ≠ Stuck) as Hne.
    { apply mapM_not_stuck, Forall_forall. intros key _. unfold entry.
      pose proof (IH h (Str key) Hwf I) as Hk.
      destruct (canonicalize fuel h (Str key)); simpl; [|done..].
      destruct (Get props key) as [child|] eqn:Hget; [|done].
      assert (canonicalize fuel h child ≠ Stuck) as Hchild.
      { apply IH; [done|]. rewrite Forall_forall in Hvals. apply Hvals.
        change (map snd props) with (snd <$> props).
        apply list_elem_of_fmap. exists (key, child).
        split; [done|]. by apply Get_Some_elem_of. }
      by destruct (canonicalize fuel h child). }
    by destruct (mapM (entry fuel h props) (Array_sort (Object_keys props))).
Qed.

(** *** Frozen objects and the rest of the program *)

Lemma apply_mutation_protected h0 x h m :
  (∀ l, reachable h0 x l → frozen_at h0 l) →
  (∀ l, reachable h0 x l → h !! l = h0 !! l) →
  ∀ l, reachable h0 x l → apply_mutation h m !! l = h0 !! l.
Proof.
  intros Hfrozen Hsame l Hreach.
  pose proof (Hfrozen l Hreach) as Hfl. pose proof (Hsame l Hreach) as Hl.
  unfold frozen_at in Hfl.
  destruct (h0 !! l) as [o|] eqn:Hl0; [|done].
  destruct o as [fr c]. simpl in Hfl. simplify_eq.
  destruct m as [l1 f|l1|o1]; simpl.
  - unfold attempt. destruct (h !! l1) as [o1|] eqn:Hl1; [|done].
    destruct (frozen o1) eqn:Hfr; [done|].
    destruct (decide (l1 = l)) as [->|Hne]; [by simplify_eq|].
    by rewrite list_lookup_insert_ne.
  - destruct (decide (l1 = l)) as [->|Hne].
    + by rewrite (Object_freeze_lookup _ _ _ Hl).
    + by rewrite Object_freeze_lookup_ne.
  - rewrite lookup_app_l; [done|]. by eapply lookup_lt_Some.
Qed.

Lemma run_protected h0 x :
  (∀ l, reachable h0 x l → frozen_at h0 l) →
  ∀ ms h, (∀ l, reachable h0 x l → h !! l = h0 !! l) →
          ∀ l, reachable h0 x l → run ms h !! l = h0 !! l.
Proof.
  intros Hfrozen. induction ms as [|m ms IH]; intros h Hsame; [done|].
  unfold run. simpl. apply IH.
  by apply apply_mutation_protected.
Qed.

(** What a value reads as depends on the objects below it only. *)
Lemma represents_agree h h' t :
  ∀ x, (∀ l, reachable h x l → h' !! l = h !! l) →
       represents h x t → represents h' x t.
Proof.
  induction t as [| | | |trees IH|trees IH] using Value_nested_ind;
    intros x Hsame Hrep;
    inversion Hrep as [| | | |l o items ? Hl Hc Hall
                       |l o props ? Hl Hc Hall]; subst;
    try constructor.
  - apply (represents_array _ l o items); [|done|].
    { rewrite Hsame; [done|constructor]. }
    assert (∀ c, c ∈ items → ∀ l', reachable h c l' → h' !! l' = h !! l')
      as Hbelow.
    { intros c Hin l' Hr. apply Hsame.
      apply (reachable_below _ _ o c); [done| |done].
      unfold own_values. by rewrite Hc. }
    clear Hrep Hl Hc Hsame.
    induction Hall as [|c t items trees Hct _ IHall]; [constructor|].
    apply Forall_cons in IH as [IHt IHtrees]. constructor.
    + apply IHt; [|done]. apply Hbelow. left.
    + apply IHall; [done|]. intros c' Hin. apply Hbelow. by right.
  - apply (represents_object _ l o props); [|done|].
    { rewrite Hsame; [done|constructor]. }
    assert (∀ kv, kv ∈ props →
                  ∀ l', reachable h kv.2 l' → h' !! l' = h !! l') as Hbelow.
    { intros kv Hin l' Hr. apply Hsame.
      apply (reachable_below _ _ o kv.2); [done| |done].
      unfold own_values. rewrite Hc.
      change (map snd props) with (snd <$> props).
      apply list_elem_of_fmap. by exists kv. }
    clear Hrep Hl Hc Hsame.
    induction Hall as [|kv kt props trees [Hk Hct] _ IHall]; [constructor|].
    apply Forall_cons in IH as [IHt IHtrees]. constructor.
    + split; [done|]. apply IHt; [|done]. apply (Hbelow kv). left.
    + apply IHall; [done|]. intros kv' Hin. apply Hbelow. by right.
Qed.

Lemma mapM_ext_in {A B} (f g : A → outcome B) xs :
  (∀ x, x ∈ xs → f x = g x) → mapM f xs = mapM g xs.
Proof.
  induction xs as [|x xs IH]; intros Hfg; [done|].
  rewrite !mapM_cons, (Hfg x) by left.
  rewrite IH; [done|]. intros y Hy. apply Hfg. by right.
Qed.

(** The canonical string depends on the objects below the value only. *)
Lemma canonicalize_agree fuel :
  ∀ h h2 x, (∀ l, reachable h x l → h2 !! l = h !! l) →
            canonicalize fuel h2 x = canonicalize fuel h x.
Proof.
  induction fuel as [|fuel IH]; intros h h2 x Hagree; [done|].
  rewrite !canonicalize_S. destruct x as [|b|n|s|l0]; try done.
  rewrite Hagree by constructor.
  destruct (h !! l0) as [o|] eqn:Hl0; [|done].
  assert (∀ child, child ∈ own_values o →
                   canonicalize fuel h2 child = canonicalize fuel h child)
    as Hchild.
  { intros child Hin. apply IH. intros l Hl. apply Hagree.
    by apply (reachable_below _ _ o child). }
  unfold own_values in Hchild.
  destruct (content o) as [items|props].
  - by rewrite (mapM_ext_in _ (canonicalize fuel h) items).
  - rewrite (mapM_ext_in _ (entry fuel h props)); [done|].
    intros key _. unfold entry.
    rewrite (IH h h2 (Str key)) by (by inversion 1).
    destruct (Get props key) as [child|] eqn:Hget; [|done].
    rewrite Hchild; [done|].
    change (map snd props) with (snd <$> props).
    apply list_elem_of_fmap. exists (key, child).
    split; [done|]. by apply Get_Some_elem_of.
Qed.

Lemma deepFreeze_cycle_RangeError h v :
  well_formed h → contains_cycle h v →
  ∀ fuel, deepFreeze fuel h v = RangeError.
Proof.
  intros Hwf Hcyc fuel.
  pose proof (deepFreeze_cycle fuel h v Hcyc) as Hret.
  pose proof (deepFreeze_not_stuck fuel h v Hwf) as Hstuck.
  destruct (deepFreeze fuel h v) as [r| |]; [by destruct (Hret r)|done|].
  destruct Hstuck; [|done].
  destruct (contains_cycle_valid _ _ Hcyc) as (l0 & -> & Hl0).
  by apply lookup_lt_is_Some.
Qed.

Lemma canonicalize_cycle_RangeError h v :
  well_formed h → contains_cycle h v →
  ∀ fuel, canonicalize fuel h v = RangeError.
Proof.
  intros Hwf Hcyc fuel.
  pose proof (canonicalize_cycle fuel h v Hwf Hcyc) as Hret.
  pose proof (canonicalize_not_stuck fuel h v Hwf) as Hstuck.
  destruct (canonicalize fuel h v) as [r| |]; [by destruct (Hret r)|done|].
  destruct Hstuck; [|done].
  destruct (contains_cycle_valid _ _ Hcyc) as (l0 & -> & Hl0).
  by apply lookup_lt_is_Some.
Qed.

Lemma deepFreeze_protected fuel h x h' x' :
  deepFreeze fuel h x = Returned (h', x') →
  ∀ l, reachable h' x l → frozen_at h' l.
Proof.
  intros Hrun l Hreach.
  destruct (deepFreeze_returned _ _ _ _ _ Hrun) as [[Heq _] Hfrozen].
  apply Hfrozen. by apply (reachable_same_content h').
Qed.

End HeapFacts.

(** *** The two embeddings of [canonicalize] agree *)

Section Agreement.

Context {F : Type} `{NumberPrinter F}.

Lemma mapM_map {A B} (f : A → Heap.outcome B) (g : A → B) xs :
  (∀ x, x ∈ xs → f x = Heap.Returned (g x)) →
  mapM f xs = Heap.Returned (map g xs).
Proof.
  induction xs as [|x xs IH]; intros Hf; [done|].
  rewrite mapM_cons, (Hf x) by left. simpl.
  rewrite IH; [done|]. intros y Hy. apply Hf. by right.
Qed.

Lemma Get_represents h (props : list (jsstring * Heap.value F)) trees key :
  Forall2 (λ kv kt, kv.1 = kt.1 ∧ Heap.represents h kv.2 kt.2) props trees →
  match Get props key, Get trees key with
  | Some child, Some t => Heap.represents h child t
  | None, None => True
  | _, _ => False
  end.
Proof.
  induction 1 as [|[k c] [k' t] props trees [Hk Hv] _ IH]; simpl in *;
    [done|]. subst k'. by destruct (decide (k = key)).
Qed.

(** On a value of the heap that reads as the tree [t], [canonicalize]
    returns the canonical string of [t] once the stack is deeper than [t]. *)
Lemma canonicalize_represents (t : Value F) :
  ∀ fuel h v, Heap.represents h v t → (depth t < fuel)%nat →
              Heap.canonicalize fuel h v = Heap.Returned (canonicalize t).
Proof.
  induction t as [|b|n|s|trees IH|trees IH] using Value_nested_ind;
    intros [|fuel] h v Hrep Hfuel; try lia;
    inversion Hrep as [| | | |l o items ? Hl Hc Hall
                       |l o props ? Hl Hc Hall]; subst;
    rewrite canonicalize_S; try done.
  - by destruct b.
  - rewrite Hl, Hc. simpl in Hfuel.
    apply Nat.succ_lt_mono, depth_children_lt in Hfuel.
    assert (mapM (Heap.canonicalize fuel h) items
            = Heap.Returned (map canonicalize trees)) as ->; [|done].
    apply mapM_Returned. clear Hrep Hl Hc.
    induction Hall as [|c t items trees Hct _ IHall]; [constructor|].
    apply Forall_cons in IH as [IHt IHtrees].
    apply Forall_cons in Hfuel as [Ht Htrees].
    constructor; auto.
  - rewrite Hl, Hc. simpl in Hfuel. apply Nat.succ_lt_mono in Hfuel.
    apply depth_children_lt in Hfuel.
    destruct (represents_props_values _ _ _ Hall) as [_ Hkeys].
    rewrite canonicalize_object, Hkeys.
    rewrite (mapM_map _ (λ key, canonicalize (VString key) ++ lit ":"
               ++ template_value (canonicalize <$> Get trees key)));
      [done|].
    intros key Hin. rewrite Array_sort_Permutation in Hin.
    destruct (Get_elem_of trees key Hin) as (t & Hget & Ht).
    rewrite Forall_forall in IH, Hfuel.
    specialize (IH _ Ht). specialize (Hfuel _ Ht). simpl in *.
    destruct fuel as [|fuel]; [lia|].
    unfold Heap.entry.
    pose proof (Get_represents h props trees key Hall) as Hrel.
    rewrite Hget in Hrel. rewrite Hget.
    destruct (Get props key) as [child|]; [|done].
    rewrite (IH (S fuel) h child Hrel Hfuel). by rewrite canonicalize_S.
Qed.

End Agreement.

(** ** [deepClone] *)

Section CloneFacts.

Context {F : Type} `{NumberPrinter F}.

Implicit Types (h : list (Heap.object F)) (v x y child : Heap.value F).
Implicit Types (o : Heap.object F) (l : nat).

Import Heap.

Lemma deepClone_S fuel h obj :
  deepClone (S fuel) h obj
  = match obj with
    | Ref l =>
        match h !! l with
        | None => Stuck
        | Some o =>
            match content o with
            | ArrayOf items =>
                h' ← clone_items fuel (length h) items
                       (h ++ [Obj false (ArrayOf [])]);
                Returned (h', Ref (length h))
            | ObjectOf props =>
                h' ← clone_props fuel (length h) props
                       (h ++ [Obj false (ObjectOf [])]);
                Returned (h', Ref (length h))
            end
        end
    | _ => Returned (h, obj)
    end.
Proof. reflexivity. Qed.

Lemma reachable_agree h h2 y :
  (∀ l, reachable h y l → h2 !! l = h !! l) →
  ∀ l, reachable h2 y l → reachable h y l.
Proof.
  intros Hagree l Hreach. revert Hagree.
  induction Hreach as [l|l0 o child l' Hl0 Hin _ IH]; intros Hagree.
  - constructor.
  - rewrite Hagree in Hl0 by constructor.
    apply (reachable_below _ _ o child); [done..|].
    apply IH. intros l Hl. apply Hagree.
    by apply (reachable_below _ _ o child).
Qed.

Lemma cloned_at_agree n h h2 y t :
  (∀ l, (n ≤ l)%nat → is_Some (h !! l) → h2 !! l = h !! l) →
  cloned_at n h y t → cloned_at n h2 y t.
Proof.
  intros Hagree [Hrep Habove].
  assert (∀ l, reachable h y l → h2 !! l = h !! l) as Hsame.
  { intros l Hl. destruct (Habove l Hl) as [Hn Hfr].
    apply Hagree; [done|]. by destruct (h !! l). }
  split; [by apply (represents_agree h)|].
  intros l Hl%(reachable_agree h); [|done].
  rewrite Hsame by done. by apply Habove.
Qed.

Lemma cloned_at_weaken n n' h y t :
  (n' ≤ n)%nat → cloned_at n h y t → cloned_at n' h y t.
Proof.
  intros Hle [Hrep Habove]. split; [done|].
  intros l Hl. destruct (Habove l Hl). split; [lia|done].
Qed.

Lemma cloned_at_prefix n h h2 y t :
  h `prefix_of` h2 → cloned_at n h y t → cloned_at n h2 y t.
Proof.
  intros [k ->]. apply cloned_at_agree. intros l _ [o Hl].
  by rewrite (lookup_app_l_Some _ _ _ _ Hl).
Qed.

Lemma cloned_at_insert n h i o y t :
  (i < n)%nat → cloned_at n h y t → cloned_at n (<[i:=o]> h) y t.
Proof.
  intros Hi. apply cloned_at_agree. intros l Hl _.
  apply list_lookup_insert_ne. lia.
Qed.

Lemma represents_prefix h h2 t :
  h `prefix_of` h2 → ∀ v, represents h v t → represents h2 v t.
Proof.
  intros [k ->].
  induction t as [| | | |trees IH|trees IH] using Value_nested_ind;
    intros v Hrep;
    inversion Hrep as [| | | |l o items ? Hl Hc Hall
                       |l o props ? Hl Hc Hall]; subst;
    try constructor.
  - apply (represents_array _ l o items);
      [by apply lookup_app_l_Some|done|].
    clear Hrep Hl Hc. induction Hall as [|c t items trees Hct _ IHall];
      [constructor|].
    apply Forall_cons in IH as [IHt IHtrees]. constructor; auto.
  - apply (represents_object _ l o props);
      [by apply lookup_app_l_Some|done|].
    clear Hrep Hl Hc. induction Hall as [|c t props trees [Hk Hct] _ IHall];
      [constructor|].
    apply Forall_cons in IH as [IHt IHtrees]. constructor; auto.
Qed.

Lemma prefix_insert_ge h h2 i o :
  h `prefix_of` h2 → (length h ≤ i)%nat → h `prefix_of` <[i:=o]> h2.
Proof.
  intros [k ->] Hi. rewrite insert_app_r_alt by done. by eexists.
Qed.

Lemma prefix_lookup h h2 l o :
  h `prefix_of` h2 → h !! l = Some o → h2 !! l = Some o.
Proof. intros [k ->]. apply lookup_app_l_Some. Qed.

Lemma clone_items_spec fuel h trees :
  Forall (clones fuel) trees →
  ∀ items hc done done_trees,
    Forall2 (represents h) items trees →
    h `prefix_of` hc →
    hc !! length h = Some (Obj false (ArrayOf done)) →
    Forall2 (cloned_at (S (length h)) hc) done done_trees →
    ∃ h' vs,
      clone_items fuel (length h) items hc = Returned h' ∧
      h `prefix_of` h' ∧
      h' !! length h = Some (Obj false (ArrayOf (done ++ vs))) ∧
      Forall2 (cloned_at (S (length h)) h') (done ++ vs)
        (done_trees ++ map without_proto trees).
Proof.
  induction 1 as [|t trees Ht _ IH];
    intros items hc done done_trees Hitems Hpre Hres Hdone;
    inversion Hitems as [|c ? items' ? Hc Hrest]; subst.
  - exists hc, []. simpl. rewrite !app_nil_r. done.
  - destruct (Ht hc c) as (h1 & v & Hrun & Hpre1 & Hv).
    { by apply (represents_prefix h). }
    pose proof (lookup_lt_Some _ _ _ Hres) as Hlen.
    pose proof (prefix_lookup _ _ _ _ Hpre1 Hres) as Hres1.
    set (h2 := <[length h := Obj false (ArrayOf (done ++ [v]))]> h1).
    assert (define_next (length h) v h1 = h2) as Hdef.
    { unfold define_next, attempt. by rewrite Hres1. }
    destruct (IH items' h2 (done ++ [v]) (done_trees ++ [without_proto t]))
      as (h' & vs & Hloop & Hpre' & Hres' & Hall'); [done|..].
    + apply prefix_insert_ge; [by etrans|done].
    + apply list_lookup_insert_eq. by eapply lookup_lt_Some.
    + apply Forall2_app.
      * eapply Forall2_impl; [done|]. intros d dt Hd.
        apply cloned_at_insert; [lia|]. by apply (cloned_at_prefix _ hc).
      * constructor; [|constructor]. apply cloned_at_insert; [lia|].
        eapply cloned_at_weaken; [|done]. lia.
    + exists h', (v :: vs). unfold clone_items in *. simpl.
      rewrite Hrun. simpl. rewrite Hdef, Hloop.
      rewrite <-!app_assoc in Hres', Hall'.
      rewrite <-(app_assoc done_trees) in Hall'. done.
Qed.

Lemma Set_property_new key v (done : list (jsstring * value F)) :
  key ≠ proto_key → key ∉ Object_keys done →
  Set_property key v done = done ++ [(key, v)].
Proof.
  intros Hne Hnew. unfold Set_property.
  rewrite decide_False by done. by rewrite decide_False.
Qed.

Lemma Set_property_proto v (done : list (jsstring * value F)) :
  Set_property proto_key v done = done.
Proof. unfold Set_property. by rewrite decide_True. Qed.

Lemma clone_props_spec fuel h trees :
  Forall (λ kt, clones fuel kt.2) trees →
  ∀ props hc done done_trees,
    Forall2 (λ kv kt, kv.1 = kt.1 ∧ represents h kv.2 kt.2) props trees →
    NoDup (Object_keys trees) →
    (∀ k, k ∈ Object_keys done → k ∉ Object_keys trees) →
    h `prefix_of` hc →
    hc !! length h = Some (Obj false (ObjectOf done)) →
    Forall2 (cloned_prop (S (length h)) hc) done done_trees →
    ∃ h' vs,
      clone_props fuel (length h) props hc = Returned h' ∧
      h `prefix_of` h' ∧
      h' !! length h = Some (Obj false (ObjectOf (done ++ vs))) ∧
      Forall2 (cloned_prop (S (length h)) h') (done ++ vs)
        (done_trees ++ filter (λ kv, kv.1 ≠ proto_key)
                         (map (λ kv, (kv.1, without_proto kv.2)) trees)).
Proof.
  induction 1 as [|[key t] trees Ht _ IH];
    intros props hc done done_trees Hprops Hnd Hnew Hpre Hres Hdone;
    inversion Hprops as [|[key' c] ? props' ? [Hk Hc] Hrest]; subst.
  - exists hc, []. simpl. rewrite !app_nil_r. done.
  - simpl in Hk, Hc, Ht. subst key'.
    apply NoDup_cons in Hnd as [Hkey Hnd].
    destruct (Ht hc c) as (h1 & v & Hrun & Hpre1 & Hv).
    { by apply (represents_prefix h). }
    pose proof (lookup_lt_Some _ _ _ Hres) as Hlen.
    pose proof (prefix_lookup _ _ _ _ Hpre1 Hres) as Hres1.
    assert (assign (length h) key v h1
            = <[length h := Obj false (ObjectOf (Set_property key v done))]> h1)
      as Hdef.
    { unfold assign, attempt. by rewrite Hres1. }
    assert (∀ done', Forall2 (cloned_prop (S (length h)) hc) done done_trees →
      Forall2 (cloned_prop (S (length h))
                 (<[length h := Obj false (ObjectOf done')]> h1))
        done done_trees) as Hkeep.
    { intros done' Hall. eapply Forall2_impl; [done|].
      intros d dt [Hdk Hd]. split; [done|].
      apply cloned_at_insert; [lia|]. by apply (cloned_at_prefix _ hc). }
    destruct (decide (key = proto_key)) as [->|Hne].
    + rewrite Set_property_proto in Hdef.
      destruct (IH props' (<[length h := Obj false (ObjectOf done)]> h1)
                  done done_trees)
        as (h' & vs & Hloop & Hpre' & Hres' & Hall'); [done|done|..].
      * intros k Hk. specialize (Hnew k Hk). simpl in Hnew.
        by apply not_elem_of_cons in Hnew as [_ ?].
      * apply prefix_insert_ge; [by etrans|done].
      * apply list_lookup_insert_eq. by eapply lookup_lt_Some.
      * by apply Hkeep.
      * exists h', vs. unfold clone_props in *. simpl.
        rewrite Hrun. simpl. rewrite Hdef, Hloop.
        rewrite filter_cons_False by (simpl; auto). done.
    + assert (key ∉ Object_keys done) as Hfresh.
      { intros Hin. apply (Hnew key Hin). left. }
      rewrite Set_property_new in Hdef by done.
      destruct (IH props'
                  (<[length h := Obj false (ObjectOf (done ++ [(key, v)]))]> h1)
                  (done ++ [(key, v)])
                  (done_trees ++ [(key, without_proto t)]))
        as (h' & vs & Hloop & Hpre' & Hres' & Hall'); [done|done|..].
      * intros k Hk. unfold Object_keys in Hk. rewrite map_app in Hk.
        apply elem_of_app in Hk as [Hk|Hk].
        -- specialize (Hnew k Hk). simpl in Hnew.
           by apply not_elem_of_cons in Hnew as [_ ?].
        -- simpl in Hk. apply list_elem_of_singleton in Hk as ->. done.
      * apply prefix_insert_ge; [by etrans|done].
      * apply list_lookup_insert_eq. by eapply lookup_lt_Some.
      * apply Forall2_app; [by apply Hkeep|].
        constructor; [|constructor]. split; [done|]. simpl.
        apply cloned_at_insert; [lia|].
        eapply cloned_at_weaken; [|done]. lia.
      * exists h', ((key, v) :: vs). unfold clone_props in *. simpl.
        rewrite Hrun. simpl. rewrite Hdef, Hloop.
        rewrite filter_cons_True by done.
        rewrite <-!app_assoc in Hres', Hall'.
        rewrite <-(app_assoc done_trees) in Hall'. done.
Qed.

Lemma cloned_at_array h n vs trees :
  h !! n = Some (Obj false (ArrayOf vs)) →
  Forall2 (cloned_at (S n) h) vs trees →
  cloned_at n h (Ref n) (VArray trees).
Proof.
  intros Hn Hall. split.
  - eapply represents_array; [done..|].
    eapply Forall2_impl; [done|]. by intros ?? [? _].
  - intros l Hl. inversion Hl as [|? o child ? Hlo Hin Hbelow]; subst.
    + split; [done|]. by rewrite Hn.
    + simplify_eq. unfold own_values in Hin. simpl in Hin.
      apply list_elem_of_lookup in Hin as [i Hi].
      destruct (Forall2_lookup_l _ _ _ _ _ Hall Hi) as (t & _ & [_ Habove]).
      destruct (Habove l Hbelow). split; [lia|done].
Qed.

Lemma cloned_at_object h n (kvs : list (jsstring * value F)) trees :
  h !! n = Some (Obj false (ObjectOf kvs)) →
  Forall2 (cloned_prop (S n) h) kvs trees →
  cloned_at n h (Ref n) (VObject trees).
Proof.
  intros Hn Hall. split.
  - eapply represents_object; [done..|].
    eapply Forall2_impl; [done|]. by intros ?? [? [? _]].
  - intros l Hl. inversion Hl as [|? o child ? Hlo Hin Hbelow]; subst.
    + split; [done|]. by rewrite Hn.
    + simplify_eq. unfold own_values in Hin. simpl in Hin.
      change (map snd kvs) with (snd <$> kvs) in Hin.
      apply list_elem_of_fmap in Hin as (kv & -> & Hin).
      apply list_elem_of_lookup in Hin as [i Hi].
      destruct (Forall2_lookup_l _ _ _ _ _ Hall Hi)
        as (t & _ & [_ [_ Habove]]).
      destruct (Habove l Hbelow). split; [lia|done].
Qed.

(** On a value without cycles [deepClone] returns, as soon as the stack is
    deeper than the value.  The objects that were there are untouched, the
    clone is made of new objects, none of them frozen, and reads as the
    original without its [__proto__] keys. *)
Lemma deepClone_spec t :
  unique_keys t → ∀ fuel, (depth t < fuel)%nat → clones fuel t.
Proof.
  induction t as [| | | |trees IH|trees IH] using Value_nested_ind;
    intros Huk [|fuel] Hfuel h x Hrep; try lia;
    inversion Hrep as [| | | |l o items ? Hl Hc Hall
                       |l o props ? Hl Hc Hall]; subst;
    rewrite deepClone_S;
    try (eexists _, _; split; [reflexivity|]; split; [done|];
         split; [by constructor|]; by inversion 1).
  - rewrite Hl, Hc. simpl in Hfuel.
    apply Nat.succ_lt_mono, depth_children_lt in Hfuel.
    inversion Huk as [|? Huks|]; [done|]; subst.
    destruct (clone_items_spec fuel h trees) with
      (items := items) (hc := h ++ [Obj false (ArrayOf [])])
      (done := @nil (value F)) (done_trees := @nil (Value F))
      as (h' & vs & -> & Hpre & Hres & Hvs); try done.
    + rewrite Forall_forall in IH, Huks, Hfuel. apply Forall_forall.
      intros t Hin. apply IH; auto.
    + by apply prefix_app_r.
    + by apply list_lookup_middle.
    + exists h', (Ref (length h)). split; [done|]. split; [done|].
      by eapply cloned_at_array.
  - rewrite Hl, Hc. simpl in Hfuel. apply Nat.succ_lt_mono in Hfuel.
    rewrite <-(map_map snd depth) in Hfuel.
    apply depth_children_lt, List.Forall_map in Hfuel.
    inversion Huk as [| |? Hnd Huks]; [done|]; subst.
    destruct (clone_props_spec fuel h trees) with
      (props := props) (hc := h ++ [Obj false (ObjectOf [])])
      (done := @nil (jsstring * value F))
      (done_trees := @nil (jsstring * Value F))
      as (h' & vs & -> & Hpre & Hres & Hvs); try done.
    + rewrite Forall_forall in IH, Huks, Hfuel. apply Forall_forall.
      intros kt Hin. apply IH; auto.
    + by intros k ?%elem_of_nil.
    + by apply prefix_app_r.
    + by apply list_lookup_middle.
    + exists h', (Ref (length h)). split; [done|]. split; [done|].
      by eapply cloned_at_object.
Qed.

(** [deepClone(deepFreeze(x))]: both calls return, and the clone is as
    [deepClone_spec] says. *)
Lemma deepClone_after_deepFreeze t h x fuel :
  unique_keys t → represents h x t → (depth t < fuel)%nat →
  ∃ h1 h2 y,
    deepFreeze fuel h x = Returned (h1, x) ∧
    deepClone fuel h1 x = Returned (h2, y) ∧
    h1 `prefix_of` h2 ∧
    cloned_at (length h1) h2 y (without_proto t).
Proof.
  intros Huk Hrep Hfuel.
  destruct (deepFreeze_terminates t fuel h x Hrep Hfuel) as (h1 & Hfreeze).
  destruct (deepFreeze_returned _ _ _ _ _ Hfreeze) as [[Heq _] _].
  destruct (deepClone_spec t Huk fuel Hfuel h1 x) as (h2 & y & ? & ? & ?).
  { by apply (represents_same_content h). }
  by exists h1, h2, y.
Qed.

(** A change of an object of the clone leaves the objects that were there
    before the clone as they are. *)
Lemma clone_change_independent n h2 y t l f l' :
  cloned_at n h2 y t → reachable h2 y l → (l' < n)%nat →
  attempt l f h2 !! l' = h2 !! l'.
Proof.
  intros [_ Habove] Hl Hl'. destruct (Habove l Hl) as [Hn _].
  unfold attempt. destruct (h2 !! l) as [o|]; [|done].
  destruct (frozen o); [done|]. apply list_lookup_insert_ne. lia.
Qed.

End CloneFacts.

(** ** More on the three functions on the heap *)

Section MoreHeapFacts.

Context {F : Type} `{NumberPrinter F}.

Implicit Types (h : list (Heap.object F)) (v x y child : Heap.value F).
Implicit Types (o : Heap.object F) (l : nat).

Import Heap.

(** *** A deeper stack changes no result *)

Lemma for_each_mono {A}
    (f g : list (object F) → A → outcome (list (object F))) xs :
  (∀ h a r, f h a = Returned r → g h a = Returned r) →
  ∀ h r, for_each f xs h = Returned r → for_each g xs h = Returned r.
Proof.
  intros Hfg. induction xs as [|a xs IH]; intros h r Hrun; [done|].
  simpl in *. apply bind_Returned in Hrun as (h1 & Ha & Hrest).
  rewrite (Hfg _ _ _ Ha). simpl. by apply IH.
Qed.

Lemma mapM_mono {A B} (f g : A → outcome B) xs ys :
  (∀ a b, f a = Returned b → g a = Returned b) →
  mapM f xs = Returned ys → mapM g xs = Returned ys.
Proof.
  intros Hfg Hrun%mapM_Returned. apply mapM_Returned.
  eapply Forall2_impl; [done|]. auto.
Qed.

Lemma canonicalize_fuel_S fuel :
  ∀ h v s, canonicalize fuel h v = Returned s →
           canonicalize (S fuel) h v = Returned s.
Proof.
  induction fuel as [|fuel IH]; intros h v s Hrun; [done|].
  rewrite canonicalize_S in Hrun. rewrite canonicalize_S.
  destruct v as [|b|n|s0|l0]; try done.
  destruct (h !! l0) as [o|]; [|done].
  destruct (content o) as [items|props].
  - apply bind_Returned in Hrun as (ys & Hys & Hret).
    rewrite (mapM_mono _ (canonicalize (S fuel) h) _ _ (IH h) Hys). done.
  - apply bind_Returned in Hrun as (ys & Hys & Hret).
    rewrite (mapM_mono (entry fuel h props) (entry (S fuel) h props) _ ys);
      [done| |done].
    intros key e. unfold entry.
    intros (ck & Hck & (cv & Hcv & Hret')%bind_Returned)%bind_Returned.
    rewrite (IH _ _ _ Hck). cbn [mbind outcome_bind].
    destruct (Get props key) as [child|].
    + by rewrite (IH _ _ _ Hcv).
    + by injection Hcv as <-.
Qed.

Lemma deepFreeze_fuel_S fuel :
  ∀ h x r, deepFreeze fuel h x = Returned r →
           deepFreeze (S fuel) h x = Returned r.
Proof.
  induction fuel as [|fuel IH]; intros h x r Hrun; [done|].
  rewrite deepFreeze_S in Hrun. rewrite deepFreeze_S.
  destruct x as [|b|n|s0|l0]; try done.
  destruct (h !! l0) as [o|]; [|done].
  apply bind_Returned in Hrun as (h1 & Hloop & Hret).
  unfold freeze_loop in *.
  eapply (for_each_mono _ (λ h child, fst <$> deepFreeze (S fuel) h child))
    in Hloop; [by rewrite Hloop|].
  intros h0 c r0 ([h2 c2] & Hc & ->)%fmap_Returned.
  by rewrite (IH _ _ _ Hc).
Qed.

Lemma clone_loops_fuel_S fuel :
  (∀ h x r, deepClone fuel h x = Returned r →
            deepClone (S fuel) h x = Returned r) →
  (∀ result items h r, clone_items fuel result items h = Returned r →
                       clone_items (S fuel) result items h = Returned r) ∧
  (∀ cloned props h r, clone_props fuel cloned props h = Returned r →
                       clone_props (S fuel) cloned props h = Returned r).
Proof.
  intros IH. split.
  - intros result items. unfold clone_items. apply for_each_mono.
    intros h0 c r0 ([h2 c2] & Hc & Hr)%bind_Returned.
    by rewrite (IH _ _ _ Hc).
  - intros cloned props. unfold clone_props. apply for_each_mono.
    intros h0 c r0 ([h2 c2] & Hc & Hr)%bind_Returned.
    by rewrite (IH _ _ _ Hc).
Qed.

Lemma deepClone_fuel_S fuel :
  ∀ h x r, deepClone fuel h x = Returned r →
           deepClone (S fuel) h x = Returned r.
Proof.
  induction fuel as [|fuel IH]; intros h x r Hrun; [done|].
  destruct (clone_loops_fuel_S fuel IH) as [Hitems Hprops].
  rewrite deepClone_S in Hrun. rewrite deepClone_S.
  destruct x as [|b|n|s0|l0]; try done.
  destruct (h !! l0) as [o|]; [|done].
  destruct (content o) as [items|props];
    apply bind_Returned in Hrun as (h1 & Hloop & Hret).
  - by rewrite (Hitems _ _ _ _ Hloop).
  - by rewrite (Hprops _ _ _ _ Hloop).
Qed.

Lemma fuel_le_mono {A} (f : nat → outcome A) :
  (∀ fuel r, f fuel = Returned r → f (S fuel) = Returned r) →
  ∀ fuel fuel' r, (fuel ≤ fuel')%nat → f fuel = Returned r →
                  f fuel' = Returned r.
Proof. intros HS fuel fuel' r Hle. induction Hle; auto. Qed.

(** *** The canonical string does not look at the frozen marks *)

Lemma same_content_lookup_None h h' l :
  map content h = map content h' → h !! l = None → h' !! l = None.
Proof.
  intros Heq Hl. apply lookup_ge_None. apply lookup_ge_None in Hl.
  by rewrite <-(length_map content h'), <-Heq, length_map.
Qed.

Lemma canonicalize_same_content fuel :
  ∀ h h' v, map content h = map content h' →
            canonicalize fuel h' v = canonicalize fuel h v.
Proof.
  induction fuel as [|fuel IH]; intros h h' v Heq; [done|].
  rewrite !canonicalize_S. destruct v as [|b|n|s0|l0]; try done.
  destruct (h !! l0) as [o|] eqn:Hl0.
  - destruct (same_content_lookup _ _ _ _ Heq Hl0) as (o' & -> & ->).
    destruct (content o) as [items|props].
    + by rewrite (mapM_ext_in _ (canonicalize fuel h) items)
        by (intros; by apply IH).
    + rewrite (mapM_ext_in _ (entry fuel h props)); [done|].
      intros key _. unfold entry. rewrite (IH h h' (Str key) Heq).
      destruct (Get props key); [|done]. by rewrite (IH h h' _ Heq).
  - by rewrite (same_content_lookup_None _ _ _ Heq Hl0).
Qed.

(** *** What [deepFreeze] freezes *)

Lemma freeze_loop_origin fuel :
  (∀ h x h' x', deepFreeze fuel h x = Returned (h', x') →
     ∀ l, frozen_at h' l → frozen_at h l ∨ reachable h x l) →
  ∀ children h h', freeze_loop fuel children h = Returned h' →
    ∀ l, frozen_at h' l →
         frozen_at h l ∨ ∃ child, child ∈ children ∧ reachable h child l.
Proof.
  intros IH. induction children as [|c children IHc]; intros h h' Hrun l Hl.
  - injection Hrun as <-. by left.
  - unfold freeze_loop in Hrun. simpl in Hrun.
    apply bind_Returned in Hrun as (h1 & Hc & Hrest).
    apply fmap_Returned in Hc as ([h1' obj'] & Hc & ->). simpl in *.
    destruct (deepFreeze_returned _ _ _ _ _ Hc) as [[Heq _] _].
    destruct (IHc _ _ Hrest l Hl) as [Hl1|(child & Hin & Hreach)].
    + destruct (IH _ _ _ _ Hc l Hl1) as [?|?]; [by left|].
      right. exists c. split; [left|done].
    + right. exists child. split; [by right|].
      by apply (reachable_same_content h1').
Qed.

Lemma deepFreeze_origin fuel :
  ∀ h x h' x', deepFreeze fuel h x = Returned (h', x') →
    ∀ l, frozen_at h' l → frozen_at h l ∨ reachable h x l.
Proof.
  induction fuel as [|fuel IH]; intros h x h' x' Hrun l Hl; [done|].
  rewrite deepFreeze_S in Hrun.
  destruct x as [|b|n|s0|l0]; try (injection Hrun as <- <-; by left).
  destruct (h !! l0) as [o|] eqn:Hl0; [|done].
  apply bind_Returned in Hrun as (h1 & Hloop & Hret). simplify_eq/=.
  destruct (freeze_loop_origin fuel IH _ _ _ Hloop l Hl)
    as [Hl1|(child & Hin & Hreach)].
  - destruct (decide (l0 = l)) as [->|Hne]; [right; constructor|].
    left. unfold frozen_at in *. by rewrite Object_freeze_lookup_ne in Hl1.
  - right. apply (reachable_below _ _ o child); [done..|].
    apply (reachable_same_content (Object_freeze l0 h)); [|done].
    by rewrite Object_freeze_content.
Qed.

Lemma more_frozen_lookup h h' l :
  more_frozen h h' → (frozen_at h' l → frozen_at h l) → h' !! l = h !! l.
Proof.
  intros [Heq Hmono] Hback. unfold frozen_at in *.
  specialize (Hmono l).
  destruct (h !! l) as [o|] eqn:Hl.
  - destruct (same_content_lookup _ _ _ _ Heq Hl) as (o' & Hl' & Hc).
    rewrite Hl' in *. destruct o as [fr c], o' as [fr' c']. simpl in *.
    subst c'. f_equal. f_equal.
    destruct fr, fr'; try done.
    + by specialize (Hmono eq_refl).
    + by specialize (Hback eq_refl).
  - by rewrite (same_content_lookup_None _ _ _ Heq Hl).
Qed.

Lemma Object_freeze_frozen l h :
  frozen_at h l → Object_freeze l h = h.
Proof.
  intros Hl. unfold frozen_at in Hl. apply list_eq. intros i.
  destruct (decide (l = i)) as [->|Hne].
  - destruct (h !! i) as [[fr c]|] eqn:Hi; [|done].
    rewrite (Object_freeze_lookup _ _ _ Hi). simpl in *. by simplify_eq.
  - by apply Object_freeze_lookup_ne.
Qed.

Lemma more_frozen_lookup_content h h' l o :
  more_frozen h h' → h !! l = Some o →
  ∃ o', h' !! l = Some o' ∧ content o' = content o.
Proof. intros [Heq _]. by apply same_content_lookup. Qed.

Lemma freeze_loop_again fuel :
  (∀ h x h' x', deepFreeze fuel h x = Returned (h', x') →
     ∀ h2, more_frozen h' h2 → deepFreeze fuel h2 x = Returned (h2, x)) →
  ∀ children h h', freeze_loop fuel children h = Returned h' →
    ∀ h2, more_frozen h' h2 → freeze_loop fuel children h2 = Returned h2.
Proof.
  intros IH. induction children as [|c children IHc]; intros h h' Hrun h2 Hmf;
    [done|].
  unfold freeze_loop in Hrun. simpl in Hrun.
  apply bind_Returned in Hrun as (h1 & Hc & Hrest).
  apply fmap_Returned in Hc as ([h1' obj'] & Hc & ->). simpl in *.
  destruct (freeze_loop_returned fuel (deepFreeze_returned fuel) _ _ _ Hrest)
    as [Hmf1 _].
  unfold freeze_loop. simpl.
  rewrite (IH _ _ _ _ Hc h2) by (by etrans). simpl.
  by apply (IHc _ _ Hrest).
Qed.

Lemma deepFreeze_again fuel :
  ∀ h x h' x', deepFreeze fuel h x = Returned (h', x') →
    ∀ h2, more_frozen h' h2 → deepFreeze fuel h2 x = Returned (h2, x).
Proof.
  induction fuel as [|fuel IH]; intros h x h' x' Hrun h2 Hmf; [done|].
  pose proof (deepFreeze_returned _ _ _ _ _ Hrun) as [Hmf0 Hfrozen].
  rewrite deepFreeze_S in Hrun. rewrite deepFreeze_S.
  destruct x as [|b|n|s0|l0]; try done.
  destruct (h !! l0) as [o|] eqn:Hl0; [|done].
  apply bind_Returned in Hrun as (h1 & Hloop & Hret). simplify_eq/=.
  destruct (more_frozen_lookup_content h h2 l0 o) as (o2 & -> & Hc);
    [by etrans|done|].
  rewrite Object_freeze_frozen by (apply Hmf, Hfrozen; constructor).
  rewrite (own_values_content _ _ Hc).
  by rewrite (freeze_loop_again fuel IH _ _ _ Hloop h2 Hmf).
Qed.

(** *** A call that returns was given a tree *)

Lemma Forall2_exists {A B} (R : A → B → Prop) (xs : list A) :
  Forall (λ a, ∃ b, R a b) xs → ∃ ys, Forall2 R xs ys.
Proof.
  induction 1 as [|a xs [b Hb] _ [ys IH]]; [by exists []|].
  exists (b :: ys). by constructor.
Qed.

Lemma represents_from_children h o l :
  h !! l = Some o →
  Forall (λ child, ∃ t, represents h child t) (own_values o) →
  ∃ t, represents h (Ref l) t.
Proof.
  intros Hl Hall. unfold own_values in Hall.
  destruct (content o) as [items|props] eqn:Hc.
  - apply Forall2_exists in Hall as [trees Hall].
    exists (VArray trees). by eapply represents_array.
  - assert (Forall (λ kv : jsstring * value F,
              ∃ kt : jsstring * Value F,
                kv.1 = kt.1 ∧ represents h kv.2 kt.2) props) as Hall'.
    { rewrite Forall_forall in Hall. apply Forall_forall. intros [k c] Hin.
      destruct (Hall c) as [t Ht]; [|by exists (k, t)].
      change (map snd props) with (snd <$> props).
      apply list_elem_of_fmap. by exists (k, c). }
    apply Forall2_exists in Hall' as [trees Hall'].
    exists (VObject trees). by eapply represents_object.
Qed.

Lemma freeze_loop_trees fuel :
  (∀ h x r, deepFreeze fuel h x = Returned r → ∃ t, represents h x t) →
  ∀ children h h', freeze_loop fuel children h = Returned h' →
    Forall (λ child, ∃ t, represents h child t) children.
Proof.
  intros IH. induction children as [|c children IHc]; intros h h' Hrun;
    [constructor|].
  unfold freeze_loop in Hrun. simpl in Hrun.
  apply bind_Returned in Hrun as (h1 & Hc & Hrest).
  apply fmap_Returned in Hc as ([h1' obj'] & Hc & ->). simpl in *.
  destruct (deepFreeze_returned _ _ _ _ _ Hc) as [[Heq _] _].
  constructor; [by eapply IH|].
  eapply Forall_impl; [by eapply IHc|]. simpl.
  intros child [t Ht]. exists t. by apply (represents_same_content h1').
Qed.

(** [deepFreeze] returns on nothing but values without cycles. *)
Lemma deepFreeze_returns_tree fuel :
  ∀ h x r, deepFreeze fuel h x = Returned r → ∃ t, represents h x t.
Proof.
  induction fuel as [|fuel IH]; intros h x r Hrun; [done|].
  rewrite deepFreeze_S in Hrun.
  destruct x as [|b|n|s0|l0]; try (eexists; constructor).
  destruct (h !! l0) as [o|] eqn:Hl0; [|done].
  apply bind_Returned in Hrun as (h1 & Hloop & _).
  apply (represents_from_children h o l0 Hl0).
  eapply Forall_impl; [by eapply (freeze_loop_trees fuel IH)|]. simpl.
  intros child [t Ht]. exists t.
  apply (represents_same_content (Object_freeze l0 h)); [|done].
  by rewrite Object_freeze_content.
Qed.

(** [canonicalize] returns on nothing but values without cycles. *)
Lemma canonicalize_returns_tree fuel :
  ∀ h v s, well_formed h → canonicalize fuel h v = Returned s →
           ∃ t, represents h v t.
Proof.
  induction fuel as [|fuel IH]; intros h v s Hwf Hrun; [done|].
  rewrite canonicalize_S in Hrun.
  destruct v as [|b|n|s0|l0]; try (eexists; constructor).
  destruct (h !! l0) as [o|] eqn:Hl0; [|done].
  apply (represents_from_children h o l0 Hl0). unfold own_values.
  destruct (content o) as [items|props] eqn:Hc.
  - apply bind_Returned in Hrun as (ys & Hys%mapM_Returned & _).
    apply Forall_forall. intros child [i Hi]%list_elem_of_lookup.
    destruct (Forall2_lookup_l _ _ _ _ _ Hys Hi) as (y & _ & Hy).
    by eapply IH.
  - apply bind_Returned in Hrun as (ys & Hys%mapM_Returned & _).
    apply Forall_forall. intros child Hin.
    change (map snd props) with (snd <$> props) in Hin.
    apply list_elem_of_fmap in Hin as ([key c] & -> & Hin). simpl.
    assert (key ∈ Array_sort (Object_keys props)) as Hkey.
    { rewrite Array_sort_Permutation. unfold Object_keys.
      change (map fst props) with (fst <$> props).
      apply list_elem_of_fmap. by exists (key, c). }
    apply list_elem_of_lookup in Hkey as [i Hi].
    destruct (Forall2_lookup_l _ _ _ _ _ Hys Hi) as (y & _ & Hy).
    unfold entry in Hy.
    apply bind_Returned in Hy as (ck & _ & Hy).
    apply bind_Returned in Hy as (cv & Hcv & _).
    rewrite (Get_NoDup props key c) in Hcv;
      [by eapply IH|by eapply well_formed_NoDup|done].
Qed.

(** *** What [deepClone] leaves alone *)

Lemma prefix_attempt h hc i (f : body F → body F) :
  h `prefix_of` hc → (length h ≤ i)%nat → h `prefix_of` attempt i f hc.
Proof.
  intros Hpre Hi. unfold attempt. destruct (hc !! i) as [o|]; [|done].
  destruct (frozen o); [done|]. by apply prefix_insert_ge.
Qed.

Lemma clone_loop_prefix {A} (step : list (object F) → A → outcome (list (object F)))
    (result : nat) :
  (∀ hc a h1, step hc a = Returned h1 →
     ∀ h, h `prefix_of` hc → (length h ≤ result)%nat → h `prefix_of` h1) →
  ∀ xs hc h', for_each step xs hc = Returned h' →
    ∀ h, h `prefix_of` hc → (length h ≤ result)%nat → h `prefix_of` h'.
Proof.
  intros Hstep. induction xs as [|a xs IH]; intros hc h' Hrun h Hpre Hlen.
  - by injection Hrun as <-.
  - simpl in Hrun. apply bind_Returned in Hrun as (h1 & Ha & Hrest).
    eapply IH; [done| |done]. by eapply Hstep.
Qed.

(** [deepClone] changes no object that was there before the call. *)
Lemma deepClone_prefix fuel :
  ∀ h x h' y, deepClone fuel h x = Returned (h', y) → h `prefix_of` h'.
Proof.
  induction fuel as [|fuel IH]; intros h x h' y Hrun; [done|].
  rewrite deepClone_S in Hrun.
  destruct x as [|b|n|s0|l0]; try (by injection Hrun as <- _).
  destruct (h !! l0) as [o|]; [|done].
  destruct (content o) as [items|props];
    apply bind_Returned in Hrun as (h1 & Hloop & Hret);
    injection Hret as <- _.
  - eapply (clone_loop_prefix _ (length h)); [|done|by apply prefix_app_r|done].
    intros hc a h2 ([h3 v] & Hc & [= <-])%bind_Returned h0 Hpre Hlen.
    apply prefix_attempt; [|done]. etrans; [done|]. by eapply IH.
  - eapply (clone_loop_prefix _ (length h)); [|done|by apply prefix_app_r|done].
    intros hc a h2 ([h3 v] & Hc & [= <-])%bind_Returned h0 Hpre Hlen.
    apply prefix_attempt; [|done]. etrans; [done|]. by eapply IH.
Qed.

Lemma reachable_prefix h hc v l :
  h `prefix_of` hc → reachable h v l → reachable hc v l.
Proof.
  intros Hpre. induction 1 as [l|l o child l' Hl Hin _ IH]; [constructor|].
  apply (reachable_below _ _ o child); [|done..].
  by eapply prefix_lookup.
Qed.

Lemma contains_cycle_prefix h hc v :
  h `prefix_of` hc → contains_cycle h v → contains_cycle hc v.
Proof.
  intros Hpre (l & Hreach & (o & child & Hl & Hin & Hback)).
  exists l. split; [by eapply reachable_prefix|].
  exists o, child. split; [by eapply prefix_lookup|].
  split; [done|]. by eapply reachable_prefix.
Qed.

Lemma clone_loop_cycle {A} (step : list (object F) → A → outcome (list (object F)))
    (get : A → value F) (result : nat) :
  (∀ hc a h1, step hc a = Returned h1 →
     ¬ contains_cycle hc (get a) ∧
     ∀ h, h `prefix_of` hc → (length h ≤ result)%nat → h `prefix_of` h1) →
  ∀ xs h hc,
    (∃ a, a ∈ xs ∧ contains_cycle h (get a)) →
    h `prefix_of` hc → (length h ≤ result)%nat →
    ∀ r, for_each step xs hc ≠ Returned r.
Proof.
  intros Hstep. induction xs as [|a xs IH];
    intros h hc (a0 & Hin & Hcyc) Hpre Hlen r Hrun.
  - by apply elem_of_nil in Hin.
  - simpl in Hrun. apply bind_Returned in Hrun as (h1 & Ha & Hrest).
    destruct (Hstep _ _ _ Ha) as [Hno Hpre1].
    apply elem_of_cons in Hin as [->|Hin].
    + apply Hno. by eapply contains_cycle_prefix.
    + eapply (IH h h1); [by exists a0|by apply Hpre1|done|done].
Qed.

(** [deepClone] keeps no record of the objects it has visited. *)
Lemma deepClone_cycle fuel :
  ∀ h x, contains_cycle h x → ∀ r, deepClone fuel h x ≠ Returned r.
Proof.
  induction fuel as [|fuel IH]; intros h x Hcyc r; [done|].
  rewrite deepClone_S.
  destruct (contains_cycle_valid _ _ Hcyc) as (l0 & -> & [o Hl0]).
  rewrite Hl0.
  destruct (cycle_below _ _ _ Hcyc Hl0) as (child & Hin & Hchild).
  unfold own_values in Hin.
  destruct (content o) as [items|props];
    intros (h1 & Hloop & _)%bind_Returned.
  - eapply (clone_loop_cycle _ id (length h)); [| | | |exact Hloop].
    + intros hc a h2 ([h3 v] & Hc & [= <-])%bind_Returned. split.
      * intros Ha. by eapply IH.
      * intros h0 Hpre Hlen. apply prefix_attempt; [|done].
        etrans; [done|]. by eapply deepClone_prefix.
    + by exists child.
    + by apply prefix_app_r.
    + done.
  - change (map snd props) with (snd <$> props) in Hin.
    apply list_elem_of_fmap in Hin as (kv & -> & Hin).
    eapply (clone_loop_cycle _ snd (length h)); [| | | |exact Hloop].
    + intros hc a h2 ([h3 v] & Hc & [= <-])%bind_Returned. split.
      * intros Ha. by eapply IH.
      * intros h0 Hpre Hlen. apply prefix_attempt; [|done].
        etrans; [done|]. by eapply deepClone_prefix.
    + by exists kv.
    + by apply prefix_app_r.
    + done.
Qed.

Lemma clone_loop_not_stuck {A}
    (step : list (object F) → A → outcome (list (object F)))
    (result : nat) h :
  (∀ hc a, h `prefix_of` hc →
     step hc a ≠ Stuck ∧
     ∀ h1, step hc a = Returned h1 → h `prefix_of` h1) →
  ∀ xs hc, h `prefix_of` hc → for_each step xs hc ≠ Stuck.
Proof.
  intros Hstep. induction xs as [|a xs IH]; intros hc Hpre; [done|].
  simpl. destruct (Hstep hc a Hpre) as [Hns Hnext].
  destruct (step hc a) as [h1| |]; simpl; [|done..].
  apply IH. by apply Hnext.
Qed.

Lemma deepClone_not_stuck fuel :
  ∀ h hc x, well_formed h → h `prefix_of` hc → value_ok (length h) x →
            deepClone fuel hc x ≠ Stuck.
Proof.
  induction fuel as [|fuel IH]; intros h hc x Hwf Hpre Hok; [done|].
  rewrite deepClone_S. destruct x as [|b|n|s0|l0]; try done.
  destruct (value_ok_lookup _ _ Hok l0 eq_refl) as [o Hl0].
  rewrite (prefix_lookup _ _ _ _ Hpre Hl0).
  pose proof (well_formed_own_values _ _ _ Hwf Hl0) as Hvals.
  pose proof (prefix_length _ _ Hpre) as Hlen.
  unfold own_values in Hvals. rewrite Forall_forall in Hvals.
  assert (h `prefix_of` hc ++ [Obj false (ArrayOf [])]) as Hpre1
    by (by apply prefix_app_r).
  assert (h `prefix_of` hc ++ [Obj false (ObjectOf [])]) as Hpre2
    by (by apply prefix_app_r).
  destruct (content o) as [items|props].
  - assert (∀ xs hc', (∀ a, a ∈ xs → value_ok (length h) a) →
              h `prefix_of` hc' →
              clone_items fuel (length hc) xs hc' ≠ Stuck) as Hloop.
    { induction xs as [|a xs IHxs]; intros hc' Hxs Hpre'; [done|].
      unfold clone_items. simpl.
      pose proof (IH h hc' a Hwf Hpre' (Hxs a ltac:(left))) as Hns.
      destruct (deepClone fuel hc' a) as [[h1 v]| |] eqn:Hc; simpl; [|done..].
      apply IHxs; [intros; apply Hxs; by right|].
      apply prefix_attempt; [|lia]. etrans; [done|].
      by eapply deepClone_prefix. }
    specialize (Hloop items _ Hvals Hpre1).
    by destruct (clone_items fuel (length hc) items
                   (hc ++ [Obj false (ArrayOf [])])).
  - assert (∀ xs hc', (∀ kv, kv ∈ xs → value_ok (length h) kv.2) →
              h `prefix_of` hc' →
              clone_props fuel (length hc) xs hc' ≠ Stuck) as Hloop.
    { induction xs as [|a xs IHxs]; intros hc' Hxs Hpre'; [done|].
      unfold clone_props. simpl.
      pose proof (IH h hc' a.2 Hwf Hpre' (Hxs a ltac:(left))) as Hns.
      destruct (deepClone fuel hc' a.2) as [[h1 v]| |] eqn:Hc; simpl;
        [|done..].
      apply IHxs; [intros; apply Hxs; by right|].
      apply prefix_attempt; [|lia]. etrans; [done|].
      by eapply deepClone_prefix. }
    assert (∀ kv, kv ∈ props → value_ok (length h) kv.2) as Hprops.
    { intros kv Hin. apply Hvals.
      change (map snd props) with (snd <$> props).
      apply list_elem_of_fmap. by exists kv. }
    specialize (Hloop props _ Hprops Hpre2).
    by destruct (clone_props fuel (length hc) props
                   (hc ++ [Obj false (ObjectOf [])])).
Qed.

Lemma deepClone_cycle_RangeError h x :
  well_formed h → contains_cycle h x →
  ∀ fuel, deepClone fuel h x = RangeError.
Proof.
  intros Hwf Hcyc fuel.
  pose proof (deepClone_cycle fuel h x Hcyc) as Hret.
  pose proof (deepClone_not_stuck fuel h h x Hwf) as Hstuck.
  destruct (deepClone fuel h x) as [r| |]; [by destruct (Hret r)|done|].
  destruct Hstuck; [done| |done].
  destruct (contains_cycle_valid _ _ Hcyc) as (l0 & -> & Hl0).
  by apply lookup_lt_is_Some.
Qed.

(** *** The clone and the original do not share *)

Lemma cloned_at_after_mutation n h y t (m : mutation F) :
  match m with
  | Change l _ | Freeze l => (l < n)%nat
  | Allocate _ => True
  end →
  cloned_at n h y t → cloned_at n (apply_mutation h m) y t.
Proof.
  intros Hm. apply cloned_at_agree. intros l Hl [o Ho].
  destruct m as [l1 f|l1|o1]; simpl.
  - unfold attempt. destruct (h !! l1) as [o1|]; [|done].
    destruct (frozen o1); [done|]. apply list_lookup_insert_ne. lia.
  - apply Object_freeze_lookup_ne. lia.
  - by rewrite Ho, (lookup_app_l_Some _ _ _ _ Ho).
Qed.

End MoreHeapFacts.

(** ** Quoting is faithful *)

(** [lia] is to reason on the divisions by constants of the encodings. *)
Ltac Zify.zify_post_hook ::= Z.div_mod_to_equations.

Lemma unhex_hex_digit n : n < 16 → unhex (hex_digit n) = n.
Proof.
  intros Hn. unfold unhex, hex_digit.
  destruct (N.ltb_spec n 10).
  - destruct (N.ltb_spec (48 + n) 58); lia.
  - destruct (N.ltb_spec (87 + n) 58); lia.
Qed.

Lemma unquote_UnicodeEscape c t :
  c < 65536 → unquote_code_point (UnicodeEscape c ++ t) = Some (c, t).
Proof.
  intros Hc. unfold UnicodeEscape. cbn -[N.div N.modulo N.mul N.add unhex hex_digit].
  rewrite !unhex_hex_digit by (apply N.mod_lt; lia).
  do 2 f_equal. lia.
Qed.

Lemma unquote_quote_code_point c t :
  c < 0x110000 →
  unquote_code_point (quote_code_point c ++ t) = Some (c, t).
Proof.
  intros Hc. unfold quote_code_point.
  destruct (N.eqb_spec c 0x08) as [->|?]; [reflexivity|].
  destruct (N.eqb_spec c 0x09) as [->|?]; [reflexivity|].
  destruct (N.eqb_spec c 0x0A) as [->|?]; [reflexivity|].
  destruct (N.eqb_spec c 0x0C) as [->|?]; [reflexivity|].
  destruct (N.eqb_spec c 0x0D) as [->|?]; [reflexivity|].
  destruct (N.eqb_spec c 0x22) as [->|?]; [reflexivity|].
  destruct (N.eqb_spec c 0x5C) as [->|?]; [reflexivity|].
  destruct ((c <? 0x20) || is_surrogate c) eqn:Hesc.
  - apply unquote_UnicodeEscape.
    apply orb_true_iff in Hesc as [Hlt%N.ltb_lt|Hs]; [lia|].
    unfold is_surrogate in Hs.
    apply andb_true_iff in Hs as [_ Hs%N.leb_le]. lia.
  - apply orb_false_iff in Hesc as [Hge%N.ltb_ge Hs].
    unfold UTF16EncodeCodePoint. destruct (N.leb_spec c 0xFFFF) as [Hle|Hgt].
    + simpl. destruct (N.eqb_spec c 0x5C) as [->|_]; [done|].
      replace (is_leading_surrogate c) with false; [done|].
      unfold is_surrogate, is_leading_surrogate in *.
      destruct (N.leb_spec 0xD800 c), (N.leb_spec c 0xDBFF),
        (N.leb_spec c 0xDFFF); simpl in *; try done; lia.
    + set (hi := (c - 0x10000) / 0x400 + 0xD800).
      set (lo := (c - 0x10000) mod 0x400 + 0xDC00).
      assert (0xD800 <= hi <= 0xDBFF) as Hhi by (unfold hi; lia).
      cbn [app unquote_code_point].
      destruct (N.eqb_spec hi 0x5C) as [Heq|_]; [lia|].
      unfold is_leading_surrogate.
      destruct (N.leb_spec 0xD800 hi), (N.leb_spec hi 0xDBFF); try lia.
      simpl. do 2 f_equal. unfold UTF16SurrogatePairToCodePoint, hi, lo. lia.
Qed.

Lemma quote_code_point_inj c1 c2 t1 t2 :
  c1 < 0x110000 → c2 < 0x110000 →
  quote_code_point c1 ++ t1 = quote_code_point c2 ++ t2 →
  c1 = c2 ∧ t1 = t2.
Proof.
  intros H1 H2 Heq.
  pose proof (unquote_quote_code_point c1 t1 H1) as E1.
  rewrite Heq, (unquote_quote_code_point c2 t2 H2) in E1.
  by simplify_eq.
Qed.

Lemma quote_code_point_not_quote c t r :
  c < 0x110000 → quote_code_point c ++ t ≠ 0x22 :: r.
Proof.
  intros Hc Heq.
  pose proof (unquote_quote_code_point c t Hc) as E.
  rewrite Heq in E. cbn in E. by simplify_eq.
Qed.

Lemma escaped_inj cps1 :
  Forall (λ c, c < 0x110000) cps1 →
  ∀ cps2 r1 r2,
    Forall (λ c, c < 0x110000) cps2 →
    flat_map quote_code_point cps1 ++ 0x22 :: r1
    = flat_map quote_code_point cps2 ++ 0x22 :: r2 →
    cps1 = cps2 ∧ r1 = r2.
Proof.
  induction 1 as [|c1 cps1 Hc1 _ IH]; intros [|c2 cps2] r1 r2 Hv2 Heq;
    simpl in Heq.
  - by simplify_eq.
  - apply Forall_cons in Hv2 as [Hc2 _]. rewrite <-app_assoc in Heq.
    symmetry in Heq. by apply quote_code_point_not_quote in Heq.
  - rewrite <-app_assoc in Heq. by apply quote_code_point_not_quote in Heq.
  - apply Forall_cons in Hv2 as [Hc2 Hv2]. rewrite <-!app_assoc in Heq.
    apply quote_code_point_inj in Heq as [-> Heq]; [|done..].
    apply IH in Heq as [-> ->]; done.
Qed.

Lemma StringToCodePoints_valid s :
  well_formed_units s → Forall (λ c, c < 0x110000) (StringToCodePoints s).
Proof.
  remember (length s) as n eqn:Hn. revert s Hn.
  induction (lt_wf n) as [n _ IH]. intros s -> Hwf.
  destruct s as [|c [|d rest]]; [constructor| |].
  - apply Forall_cons in Hwf as [Hc _]. repeat constructor. simpl. lia.
  - rewrite StringToCodePoints_cons2.
    apply Forall_cons in Hwf as [Hc Hwf].
    destruct (is_leading_surrogate c && is_trailing_surrogate d) eqn:Hpair.
    + apply andb_true_iff in Hpair as [Hl Ht].
      unfold is_leading_surrogate, is_trailing_surrogate in *.
      apply andb_true_iff in Hl as [Hl1%N.leb_le Hl2%N.leb_le].
      apply andb_true_iff in Ht as [Ht1%N.leb_le Ht2%N.leb_le].
      apply Forall_cons in Hwf as [Hd Hwf]. constructor.
      * unfold UTF16SurrogatePairToCodePoint. lia.
      * eapply IH; [|done..]. simpl. lia.
    + constructor; [simpl; lia|]. eapply IH; [|done..]. simpl. lia.
Qed.

Lemma UTF16_encode_decode s :
  well_formed_units s →
  flat_map UTF16EncodeCodePoint (StringToCodePoints s) = s.
Proof.
  remember (length s) as n eqn:Hn. revert s Hn.
  induction (lt_wf n) as [n _ IH]. intros s -> Hwf.
  destruct s as [|c [|d rest]]; [done| |].
  - apply Forall_cons in Hwf as [Hc _]. simpl.
    unfold UTF16EncodeCodePoint. destruct (N.leb_spec c 0xFFFF); [done|lia].
  - rewrite StringToCodePoints_cons2.
    apply Forall_cons in Hwf as [Hc Hwf].
    destruct (is_leading_surrogate c && is_trailing_surrogate d) eqn:Hpair.
    + apply andb_true_iff in Hpair as [Hl Ht].
      unfold is_leading_surrogate, is_trailing_surrogate in *.
      apply andb_true_iff in Hl as [Hl1%N.leb_le Hl2%N.leb_le].
      apply andb_true_iff in Ht as [Ht1%N.leb_le Ht2%N.leb_le].
      apply Forall_cons in Hwf as [Hd Hwf]. cbn [flat_map].
      rewrite (IH (length rest)); [|simpl; lia|done..].
      unfold UTF16EncodeCodePoint, UTF16SurrogatePairToCodePoint.
      destruct (N.leb_spec ((c - 55296) * 1024 + (d - 56320) + 65536) 65535);
        [lia|].
      cbn [app]. do 2 f_equal; [lia|]. f_equal. lia.
    + cbn [flat_map]. rewrite (IH (length (d :: rest))); [|simpl; lia|done..].
      unfold UTF16EncodeCodePoint. destruct (N.leb_spec c 0xFFFF); [done|lia].
Qed.

Lemma StringToCodePoints_inj s1 s2 :
  well_formed_units s1 → well_formed_units s2 →
  StringToCodePoints s1 = StringToCodePoints s2 → s1 = s2.
Proof.
  intros H1 H2 Heq.
  by rewrite <-(UTF16_encode_decode s1), <-(UTF16_encode_decode s2), Heq.
Qed.

(** A quoted string determines the string and where it ends. *)
Lemma QuoteJSONString_inj s1 s2 r1 r2 :
  well_formed_units s1 → well_formed_units s2 →
  QuoteJSONString s1 ++ r1 = QuoteJSONString s2 ++ r2 →
  s1 = s2 ∧ r1 = r2.
Proof.
  intros H1 H2 Heq. unfold QuoteJSONString in Heq.
  rewrite <-!app_assoc in Heq. simpl in Heq. injection Heq as Heq.
  apply escaped_inj in Heq as [Hcps ->];
    [|by apply StringToCodePoints_valid..].
  split; [|done]. by apply StringToCodePoints_inj.
Qed.

(** ** The canonical string determines the value *)

Lemma number_units_span (a b r1 r2 : jsstring) :
  Forall (λ c, is_number_unit c = true) a →
  Forall (λ c, is_number_unit c = true) b →
  stops r1 → stops r2 → a ++ r1 = b ++ r2 → a = b ∧ r1 = r2.
Proof.
  intros Ha. revert b. induction Ha as [|c a Hc _ IH];
    intros b Hb Hr1 Hr2 Heq; destruct Hb as [|d b Hd Hb]; simpl in *.
  - done.
  - subst r1. simpl in Hr1. congruence.
  - subst r2. simpl in Hr2. congruence.
  - injection Heq as -> Heq. by destruct (IH b Hb Hr1 Hr2 Heq) as [-> ->].
Qed.

Lemma join_cons_rest close x xs r :
  Array_join [0x2C] (x :: xs) ++ close :: r = x ++ rest_items close xs r.
Proof. destruct xs; simpl; by rewrite <-?app_assoc. Qed.

Lemma rest_items_cons close x xs r :
  rest_items close (x :: xs) r = 0x2C :: x ++ rest_items close xs r.
Proof. unfold rest_items at 1. by rewrite join_cons_rest. Qed.

Lemma stops_rest_items close items r :
  is_number_unit close = false → stops (rest_items close items r).
Proof. intros Hclose. by destruct items. Qed.

Section Joined.

Context {A : Type} (ser : A → jsstring) (R : A → A → Prop) (ok : A → Prop).
Context (close : N).
Context (close_stops : is_number_unit close = false).
Context (close_not_comma : close ≠ 0x2C).
Context (not_close : ∀ y r r', ok y → ser y ++ r ≠ close :: r').

Lemma rest_items_inj xs :
  Forall (read_back ser R ok) xs →
  ∀ ys r1 r2, Forall ok ys →
    rest_items close (map ser xs) r1 = rest_items close (map ser ys) r2 →
    Forall2 R xs ys ∧ r1 = r2.
Proof.
  induction 1 as [|x xs Hx _ IH]; intros [|y ys] r1 r2 Hok Heq;
    cbn [map] in Heq; rewrite ?rest_items_cons in Heq.
  - injection Heq as ->. by split; [constructor|].
  - by injection Heq as Hc _.
  - by injection Heq as Hc _.
  - injection Heq as Heq.
    apply Forall_cons in Hok as [Hy Hok].
    apply Hx in Heq as [Hxy Heq]; [|done|by apply stops_rest_items..].
    destruct (IH ys r1 r2 Hok Heq) as [Hall ->]. split; [by constructor|done].
Qed.

Lemma joined_inj xs :
  Forall (read_back ser R ok) xs → Forall ok xs →
  ∀ ys r1 r2, Forall ok ys →
    Array_join [0x2C] (map ser xs) ++ close :: r1
    = Array_join [0x2C] (map ser ys) ++ close :: r2 →
    Forall2 R xs ys ∧ r1 = r2.
Proof.
  intros Hxs Hokx ys r1 r2 Hok Heq.
  destruct Hxs as [|x xs Hx Hxs], Hok as [|y ys Hy Hok]; cbn [map] in Heq.
  - simpl in Heq. by simplify_eq.
  - rewrite join_cons_rest in Heq. simpl in Heq.
    symmetry in Heq. by apply not_close in Heq.
  - apply Forall_cons in Hokx as [Hokx _].
    rewrite join_cons_rest in Heq. simpl in Heq.
    by apply not_close in Heq.
  - rewrite !join_cons_rest in Heq.
    apply Hx in Heq as [Hxy Heq]; [|done|by apply stops_rest_items..].
    destruct (rest_items_inj xs Hxs ys r1 r2 Hok Heq) as [Hall ->].
    split; [by constructor|done].
Qed.

End Joined.

Section Injective.

Context {F : Type} `{NumberPrinterFaithful F}.

Lemma canonicalize_kind (v : Value F) :
  supported v → ∃ c t, canonicalize v = c :: t ∧ unit_kind c = kind v.
Proof.
  destruct 1 as [|[]|x|s|items|props]; try (by eexists _, _).
  pose proof (Number_toString_units x) as Hunits.
  pose proof (Number_toString_nonempty x) as Hne. simpl.
  destruct (Number_toString x) as [|c t]; [done|].
  apply Forall_cons in Hunits as [Hc _].
  exists c, t. split; [done|]. unfold unit_kind. by rewrite Hc.
Qed.

Lemma canonicalize_same_kind (v1 v2 : Value F) r1 r2 :
  supported v1 → supported v2 →
  canonicalize v1 ++ r1 = canonicalize v2 ++ r2 → kind v1 = kind v2.
Proof.
  intros (c1 & t1 & E1 & <-)%canonicalize_kind
         (c2 & t2 & E2 & <-)%canonicalize_kind.
  rewrite E1, E2. by intros [= -> _].
Qed.

Lemma sorted_props_keys (props : list (jsstring * Value F)) :
  map fst (sorted_props props) = Array_sort (Object_keys props).
Proof.
  unfold sorted_props. rewrite map_map. simpl. apply map_id.
Qed.

Lemma canonicalize_sorted_props (props : list (jsstring * Value F)) :
  canonicalize (VObject props)
  = lit "{" ++ Array_join (lit ",") (map write_prop (sorted_props props))
      ++ lit "}".
Proof.
  rewrite canonicalize_object. unfold sorted_props. by rewrite map_map.
Qed.

Lemma sorted_props_elem_of (props : list (jsstring * Value F)) key ov :
  (key, ov) ∈ sorted_props props →
  ∃ v, ov = Some v ∧ (key, v) ∈ props.
Proof.
  unfold sorted_props. change (map ?f ?l) with (f <$> l).
  intros (k & [= -> ->] & Hk)%list_elem_of_fmap.
  rewrite Array_sort_Permutation in Hk.
  destruct (Get_elem_of props k Hk) as (v & -> & Hv). eauto.
Qed.

Lemma sorted_props_ok (props : list (jsstring * Value F)) :
  Forall (λ kv, well_formed_units kv.1 ∧ supported kv.2) props →
  Forall prop_ok (sorted_props props).
Proof.
  intros Hall. apply Forall_forall. intros [key ov] Hin.
  destruct (sorted_props_elem_of _ _ _ Hin) as (v & -> & Hv).
  rewrite Forall_forall in Hall. destruct (Hall _ Hv) as [Hk Hs].
  split; [done|]. eauto.
Qed.

Lemma same_props_same_content (props1 props2 : list (jsstring * Value F)) :
  NoDup (Object_keys props1) → NoDup (Object_keys props2) →
  Forall2 same_prop (sorted_props props1) (sorted_props props2) →
  same_content (VObject props1) (VObject props2).
Proof.
  intros Hnd1 Hnd2 Hall.
  assert (Array_sort (Object_keys props1) = Array_sort (Object_keys props2))
    as Hkeys.
  { rewrite <-!sorted_props_keys.
    induction Hall as [|p q ps qs [Hk _] _ IH]; simpl; congruence. }
  constructor.
  - by rewrite <-(Array_sort_Permutation (Object_keys props1)), Hkeys,
      Array_sort_Permutation.
  - intros key v1 v2 H1 H2.
    assert (key ∈ Array_sort (Object_keys props1)) as Hin.
    { rewrite Array_sort_Permutation. unfold Object_keys.
      change (map fst props1) with (fst <$> props1).
      apply list_elem_of_fmap. by exists (key, v1). }
    apply list_elem_of_lookup in Hin as [i Hi].
    assert (sorted_props props1 !! i = Some (key, Some v1)) as Hp1.
    { unfold sorted_props. change (map ?f ?l) with (f <$> l).
      rewrite list_lookup_fmap, Hi. simpl.
      by rewrite (Get_NoDup props1 key v1). }
    assert (sorted_props props2 !! i = Some (key, Some v2)) as Hp2.
    { unfold sorted_props. change (map ?f ?l) with (f <$> l).
      rewrite list_lookup_fmap, <-Hkeys, Hi. simpl.
      by rewrite (Get_NoDup props2 key v2). }
    destruct (Forall2_lookup_l _ _ _ _ _ Hall Hp1) as (q & Hq & _ & Hrel).
    rewrite Hp2 in Hq. simplify_eq.
    destruct Hrel as (w1 & w2 & ? & ? & ?). by simplify_eq/=.
Qed.

(** A canonical string, followed by anything that is not part of a number,
    determines the value up to the order of keys, and where it ends. *)
Lemma canonicalize_read_back (v1 : Value F) :
  supported v1 →
  ∀ v2 r1 r2, supported v2 → stops r1 → stops r2 →
    canonicalize v1 ++ r1 = canonicalize v2 ++ r2 →
    same_content v1 v2 ∧ r1 = r2.
Proof.
  induction v1 as [|b1|n1|s1|items1 IH|props1 IH] using Value_nested_ind;
    intros Hs1 v2 r1 r2 Hs2 Hr1 Hr2 Heq;
    pose proof (canonicalize_same_kind _ _ _ _ Hs1 Hs2 Heq) as Hkind;
    destruct v2 as [|b2|n2|s2|items2|props2];
    try destruct b1; try destruct b2; try discriminate Hkind; clear Hkind.
  - simpl in Heq. injection Heq as ->. by split; [constructor|].
  - simpl in Heq. injection Heq as ->. by split; [constructor|].
  - simpl in Heq. injection Heq as ->. by split; [constructor|].
  - inversion Hs1; inversion Hs2; subst. simpl in Heq.
    apply number_units_span in Heq as [Heq ->];
      [|by apply Number_toString_units..|done|done].
    apply Number_toString_inj in Heq as ->. by split; [constructor|].
  - inversion Hs1; inversion Hs2; subst. simpl in Heq.
    apply QuoteJSONString_inj in Heq as [-> ->]; [|done..].
    by split; [constructor|].
  - inversion Hs1 as [| | | |? Hok1|]; inversion Hs2 as [| | | |? Hok2|];
      subst. rewrite !canonicalize_array in Heq.
    rewrite <-!app_assoc in Heq. injection Heq as Heq.
    apply (joined_inj canonicalize same_content supported 93) in Heq
      as [Hall ->]; try done.
    + by split; [constructor|].
    + intros y r r' Hy Hyr.
      destruct (canonicalize_kind y Hy) as (c & t & E & Hc).
      rewrite E in Hyr. injection Hyr as -> _. by destruct y as [|[]| | | |].
    + rewrite Forall_forall in IH, Hok1. apply Forall_forall.
      intros x Hx y r1' r2' Hy. apply IH; auto.
  - inversion Hs1 as [| | | | |? Hnd1 Hok1]; inversion Hs2 as [| | | | |? Hnd2 Hok2];
      subst. rewrite !canonicalize_sorted_props in Heq.
    rewrite <-!app_assoc in Heq. injection Heq as Heq.
    apply (joined_inj write_prop same_prop prop_ok 125) in Heq
      as [Hall ->]; try done.
    + split; [|done]. by apply same_props_same_content.
    + apply Forall_forall. intros [k1 ov1] Hin [k2 ov2] r1' r2'.
      intros [Hk2 (w2 & Hov2 & Hw2)] Hr1' Hr2'. simpl in Hk2, Hov2. subst ov2.
      destruct (sorted_props_elem_of _ _ _ Hin) as (w1 & -> & Hw1).
      rewrite Forall_forall in IH, Hok1.
      destruct (Hok1 _ Hw1) as [Hk1 Hsw1]. specialize (IH _ Hw1).
      unfold write_prop. cbn [fst snd fmap option_fmap option_map template_value].
      change (canonicalize (VString ?k)) with (QuoteJSONString k).
      rewrite <-!app_assoc.
      intros Hq. apply QuoteJSONString_inj in Hq as [-> Hq]; [|done..].
      apply app_inv_head in Hq.
      destruct (IH Hsw1 w2 r1' r2' Hw2 Hr1' Hr2' Hq) as [Hsame ->].
      split; [|done]. split; [done|]. eauto.
    + by apply sorted_props_ok.
    + by apply sorted_props_ok.
Qed.

End Injective.

(** ** The integer instance prints faithfully *)

Lemma uint_units_inj d1 d2 : uint_units d1 = uint_units d2 → d1 = d2.
Proof.
  revert d2. induction d1 as [|d1 IH|d1 IH|d1 IH|d1 IH|d1 IH|d1 IH|d1 IH
                              |d1 IH|d1 IH|d1 IH];
    intros [|d2|d2|d2|d2|d2|d2|d2|d2|d2|d2]; simpl; intros Heq;
    try discriminate Heq; try done;
    injection Heq as Heq; f_equal; by apply IH.
Qed.

Lemma uint_units_number d :
  Forall (λ c, is_number_unit c = true) (uint_units d).
Proof. induction d; simpl; by constructor. Qed.

Global Instance Integer_toString_faithful : NumberPrinterFaithful N.
Proof.
  split.
  - intros x y Heq. by apply DecimalN.Unsigned.to_uint_inj, uint_units_inj.
  - intros x. apply uint_units_number.
  - intros [|p]; [done|]. unfold Number_toString, Integer_toString. simpl.
    pose proof (DecimalPos.Unsigned.to_uint_nonnil p) as Hne.
    by destruct (Pos.to_uint p).
Qed.

(** ** The code units of a canonical string *)

Lemma hex_digit_ge n : 32 <= hex_digit n.
Proof. unfold hex_digit. destruct (N.ltb_spec n 10); lia. Qed.

Lemma quote_code_point_printable c :
  Forall (λ u, 32 <= u) (quote_code_point c).
Proof.
  unfold quote_code_point.
  repeat (match goal with
          | |- context [if ?a =? ?b then _ else _] =>
              destruct (N.eqb_spec a b) as [?|?]
          end; [repeat constructor; lia|]).
  destruct ((c <? 0x20) || is_surrogate c) eqn:Hesc.
  - unfold UnicodeEscape.
    repeat constructor; try lia; apply hex_digit_ge.
  - apply orb_false_iff in Hesc as [Hge%N.ltb_ge _].
    unfold UTF16EncodeCodePoint. destruct (N.leb_spec c 0xFFFF).
    + repeat constructor. lia.
    + repeat constructor; lia.
Qed.

Lemma QuoteJSONString_printable s :
  Forall (λ u, 32 <= u) (QuoteJSONString s).
Proof.
  unfold QuoteJSONString. apply Forall_app. split; [repeat constructor; lia|].
  apply Forall_app. split; [|repeat constructor; lia].
  induction (StringToCodePoints s) as [|c cps IH]; [constructor|].
  simpl. apply Forall_app. split; [apply quote_code_point_printable|done].
Qed.

Lemma Array_join_Forall (P : N → Prop) sep items :
  Forall P sep → Forall (Forall P) items → Forall P (Array_join sep items).
Proof.
  intros Hsep. induction 1 as [|x items Hx Hitems IH]; [constructor|].
  simpl. destruct items as [|x' items']; [done|].
  apply Forall_app. split; [done|]. apply Forall_app. by split.
Qed.

Lemma lit_comma_printable : Forall (λ u, 32 <= u) (lit ",").
Proof. repeat constructor. vm_compute. discriminate. Qed.

Section Printable.

Context {F : Type} `{NumberPrinterFaithful F}.

Lemma canonicalize_printable (v : Value F) :
  Forall (λ u, 32 <= u) (canonicalize v).
Proof.
  induction v as [|[]|n|s|items IH|props IH] using Value_nested_ind.
  - repeat constructor; by vm_compute.
  - repeat constructor; by vm_compute.
  - repeat constructor; by vm_compute.
  - destruct n as [| | |x]; try (repeat constructor; by vm_compute).
    simpl. eapply Forall_impl; [apply Number_toString_units|].
    intros c Hc. simpl in Hc. unfold is_number_unit in Hc.
    repeat (apply orb_true_iff in Hc as [Hc|Hc]);
      try (apply N.eqb_eq in Hc; lia).
    apply andb_true_iff in Hc as [Hc%N.leb_le _]. lia.
  - apply QuoteJSONString_printable.
  - rewrite canonicalize_array. apply Forall_app. split;
      [repeat constructor; by vm_compute|].
    apply Forall_app. split; [|repeat constructor; by vm_compute].
    apply Array_join_Forall; [apply lit_comma_printable|].
    by apply List.Forall_map.
  - rewrite canonicalize_object. apply Forall_app. split;
      [repeat constructor; by vm_compute|].
    apply Forall_app. split; [|repeat constructor; by vm_compute].
    apply Array_join_Forall; [apply lit_comma_printable|].
    apply List.Forall_map, Forall_forall. intros key _.
    apply Forall_app. split; [apply QuoteJSONString_printable|].
    apply Forall_app. split; [repeat constructor; by vm_compute|].
    destruct (Get props key) as [v|] eqn:Hget; simpl.
    + rewrite Forall_forall in IH.
      apply (IH (key, v)). by apply Get_Some_elem_of.
    + repeat constructor; by vm_compute.
Qed.

End Printable.

Section Nulled.

Context {F : Type} `{NumberPrinter F}.

Lemma canonicalize_nulled (v : Value F) :
  canonicalize (nulled v) = canonicalize v.
Proof.
  induction v as [|b|n|s|items IH|props IH] using Value_nested_ind;
    try done.
  - by destruct n.
  - cbn [nulled]. rewrite !canonicalize_array, map_map. do 3 f_equal.
    apply map_ext_in. intros v Hv%list_elem_of_In.
    rewrite Forall_forall in IH. by apply IH.
  - cbn [nulled canonicalize]. unfold Object_keys. rewrite !map_map. simpl.
    do 3 f_equal. apply map_ext. intros key. do 5 f_equal.
    apply map_ext_in. intros kv Hkv%list_elem_of_In. f_equal.
    rewrite Forall_forall in IH. by apply IH.
Qed.

End Nulled.

(** ** The examples of the specification *)

Example canonicalize_123 :
  canonicalize (VArray [int 1; int 2; int 3]) = lit "[1,2,3]".
Proof. reflexivity. Qed.

Example canonicalize_ba :
  canonicalize ba_object
  = lit "{" ++ quoted "a" ++ lit ":1," ++ quoted "b" ++ lit ":2}".
Proof. reflexivity. Qed.

Example sha256Hex_ab :
  sha256Hex ab_object
  = lit "43258cff783fe7036d8a43033f830adfc60ec037382473548ac742b888292777".
Proof. vm_compute. reflexivity. Qed.

Example id32_cred_alice :
  id32 (lit "cred") (VString (lit "alice"))
  = lit "cred_0a50500b2a3435fe7472877eb22d48d4".
Proof. vm_compute. reflexivity. Qed.

(** The string A, line feed, double quote, backslash, U+0001 and a lone
    surrogate: 5C is the backslash. *)
Example canonicalize_escapes :
  canonicalize (VString [0x41; 0x0A; 0x22; 0x5C; 0x01; 0xD800] : Value N)
  = [0x22; 0x41; 0x5C] ++ lit "n" ++ [0x5C; 0x22; 0x5C; 0x5C; 0x5C]
      ++ lit "u0001" ++ [0x5C] ++ lit "ud800" ++ [0x22].
Proof. reflexivity. Qed.

Example canonicalize_nested_heap :
  Heap.canonicalize 3 nested_heap (Heap.Ref 0)
  = Heap.Returned (canonicalize nested_tree).
Proof. reflexivity. Qed.

Example deepClone_nested_heap :
  Heap.deepClone 3 nested_heap_frozen (Heap.Ref 0)
  = Heap.Returned
      (nested_heap_frozen ++
       [Heap.Obj false (Heap.ObjectOf [(lit "a", Heap.Ref 3)]);
        Heap.Obj false (Heap.ArrayOf [Heap.Num (Finite 1)])],
       Heap.Ref 2).
Proof. reflexivity. Qed.

(** Emptying the array of [nested_heap] works before the freeze and is
    dropped after it. *)
Example change_before_freeze :
  Heap.run [Heap.Change 1 (λ _, Heap.ArrayOf [])] nested_heap !! 1%nat
  = Some (Heap.Obj false (Heap.ArrayOf [])).
Proof. reflexivity. Qed.

Example change_after_freeze :
  Heap.run [Heap.Change 1 (λ _, Heap.ArrayOf [])] nested_heap_frozen
  = nested_heap_frozen.
Proof. reflexivity. Qed.

(** ** Properties of [canonicalize], [sha256Hex] and [id32] *)

Section TreeClaims.

Context {F : Type} `{NumberPrinter F}.

(** C1. Two values with the same keys bound to the same values, whatever
    the order in which the keys were inserted, have the same canonical
    string and hence the same digest. *)
Theorem canonicalize_key_order_irrelevant (v1 v2 : Value F) :
  same_content v1 v2 →
  canonicalize v1 = canonicalize v2 ∧ sha256Hex v1 = sha256Hex v2.
Proof.
  intros Hsame. pose proof (same_content_canonicalize v1 v2 Hsame) as Heq.
  split; [done|]. unfold sha256Hex. by rewrite Heq.
Qed.

(** C4, as the code has it.  [canonicalize] writes the [key:value] pairs of
    an object in the order of [Object.keys(value).sort()]: the keys sorted by
    lexicographic comparison of their UTF-16 code units.  When no key holds a
    surrogate code unit this is also the order of their code points. *)
Theorem canonicalize_sorts_keys_by_code_unit (props : list (jsstring * Value F)) :
  ∃ keys : list jsstring,
    keys ≡ₚ Object_keys props ∧
    StronglySorted unit_le keys ∧
    canonicalize (VObject props)
    = lit "{" ++ Array_join (lit ",")
        (map (λ key, canonicalize (VString key) ++ lit ":"
                     ++ template_value (canonicalize <$> Get props key))
             keys) ++ lit "}" ∧
    (Forall no_surrogates (Object_keys props) →
     StronglySorted code_point_le keys).
Proof.
  exists (Array_sort (Object_keys props)).
  split; [apply Array_sort_Permutation|].
  split; [apply Array_sort_sorted|].
  split; [apply canonicalize_object|].
  intros Hbmp.
  assert (Forall no_surrogates (Array_sort (Object_keys props))) as Hsorted
    by by rewrite Array_sort_Permutation.
  pose proof (Array_sort_sorted (Object_keys props)) as Hs.
  induction Hs as [|key keys Hs IH Hall]; [constructor|].
  apply Forall_cons in Hsorted as [Hkey Hkeys].
  constructor; [auto|].
  rewrite Forall_forall in Hall, Hkeys. apply Forall_forall.
  intros key' Hin. unfold code_point_le.
  rewrite !StringToCodePoints_no_surrogates by auto.
  by apply Hall.
Qed.

(** C5. [id32] is the prefix, an underscore and the first 32 characters of
    the digest, the digest being the lowercase hex SHA-256 of the UTF-8
    bytes of the canonical string; what follows the underscore is 32
    lowercase hex characters.  The result is a function of the input. *)
Theorem id32_is_prefix_and_32_hex (prefix : jsstring) (material : Value F) :
  sha256Hex material
  = hex_encode (SHA256.digest (utf8_encode (canonicalize material))) ∧
  id32 prefix material
  = prefix ++ lit "_" ++ take 32 (sha256Hex material) ∧
  ∃ hex : jsstring,
    id32 prefix material = prefix ++ [0x5F] ++ hex ∧
    length hex = 32%nat ∧ Forall is_lower_hex hex.
Proof.
  split; [reflexivity|]. split; [reflexivity|].
  exists (take 32 (sha256Hex material)). split; [reflexivity|]. split.
  - rewrite length_take, sha256Hex_length. reflexivity.
  - apply Forall_take, sha256Hex_lower.
Qed.

(** C9. A number that is not finite is written as [null], the canonical
    string of the null value, so digests and identifiers cannot tell the
    two apart. *)
Theorem canonicalize_non_finite_is_null (n : Number F) :
  is_finite n = false →
  canonicalize (VNumber n) = lit "null" ∧
  canonicalize (VNumber n) = canonicalize (VNull : Value F) ∧
  sha256Hex (VNumber n) = sha256Hex (VNull : Value F) ∧
  ∀ prefix, id32 prefix (VNumber n) = id32 prefix (VNull : Value F).
Proof. by destruct n. Qed.

(** C10. [id32] checks nothing about the prefix: for every prefix and
    material it returns a string of the prefix's length plus 33. *)
Theorem id32_length (prefix : jsstring) (material : Value F) :
  length (id32 prefix material) = (length prefix + 33)%nat.
Proof.
  unfold id32, String_slice0.
  rewrite !length_app, length_take, sha256Hex_length. reflexivity.
Qed.

End TreeClaims.

Lemma ab_ba_same_content : same_content ab_object ba_object.
Proof.
  constructor.
  - apply Permutation_swap.
  - intros key v1 v2 H1 H2.
    repeat match goal with
           | H : _ ∈ _ :: _ |- _ => apply elem_of_cons in H as [H|H]
           | H : _ ∈ [] |- _ => by apply elem_of_nil in H
           end; simplify_eq; by constructor.
Qed.

Lemma canonicalize_key_order_irrelevant_witness :
  same_content ab_object ba_object ∧
  canonicalize ab_object = canonicalize ba_object ∧
  sha256Hex ab_object = sha256Hex ba_object.
Proof.
  split; [exact ab_ba_same_content|].
  exact (canonicalize_key_order_irrelevant ab_object ba_object ab_ba_same_content).
Defined.

Lemma canonicalize_non_finite_is_null_witness :
  canonicalize (VNumber NaN : Value N) = lit "null" ∧
  canonicalize (VNumber NaN : Value N) = canonicalize (VNull : Value N) ∧
  sha256Hex (VNumber NaN : Value N) = sha256Hex (VNull : Value N) ∧
  ∀ prefix, id32 prefix (VNumber NaN : Value N) = id32 prefix (VNull : Value N).
Proof. exact (canonicalize_non_finite_is_null NaN eq_refl). Defined.

(** C4 as stated fails: the key U+10000 is the surrogate pair D800 DC00 and
    sorts before the key U+FF5E by code units, though its code point is the
    larger one. *)
Lemma code_point_order_counterexample :
  let props : list (jsstring * Value N) :=
    [(fullwidth_key, VNull); (astral_key, VNull)] in
  canonicalize (VObject props)
  = lit "{" ++ QuoteJSONString astral_key ++ lit ":null,"
      ++ QuoteJSONString fullwidth_key ++ lit ":null}" ∧
  Array_sort (Object_keys props) = [astral_key; fullwidth_key] ∧
  ¬ code_point_le astral_key fullwidth_key ∧
  ¬ StronglySorted code_point_le (Array_sort (Object_keys props)).
Proof.
  split; [by vm_compute|]. split; [by vm_compute|].
  split; [by vm_compute|].
  intros Hs. apply (StronglySorted_inv) in Hs as [_ Hall].
  apply Forall_inv in Hall. revert Hall. by vm_compute.
Qed.

(** ** Properties of [canonicalize], [deepFreeze] and [deepClone] on the heap *)

Section HeapClaims.

Context {F : Type} `{NumberPrinter F}.

Implicit Types (h : list (Heap.object F)) (x v : Heap.value F).

(** C3, as the code has it.  A number that is not finite is not refused:
    [canonicalize] returns [null] for it.  The code has no error of its own
    and keeps no record of the objects it has visited: on a value that
    contains a cycle the recursion exceeds every call stack, so that no
    string, whole or partial, is returned. *)
Theorem canonicalize_malformed_input h :
  (∀ fuel (n : Number F), is_finite n = false →
     Heap.canonicalize (S fuel) h (Heap.Num n) = Heap.Returned (lit "null")) ∧
  (∀ v, Heap.well_formed h → Heap.contains_cycle h v →
     ∀ fuel, Heap.canonicalize fuel h v = Heap.RangeError).
Proof.
  split.
  - intros fuel n Hn. by destruct n.
  - intros v Hwf Hcyc. by apply canonicalize_cycle_RangeError.
Qed.

(** C6. Once [deepFreeze(x)] has returned, whatever the program then does
    to the heap, every object below [x] is as it was, [x] reads as the same
    value and has the same canonical string. *)
Theorem deepFreeze_protects fuel h x h' x' :
  Heap.deepFreeze fuel h x = Heap.Returned (h', x') →
  ∀ ms : list (Heap.mutation F),
    (∀ l, Heap.reachable h' x l → Heap.run ms h' !! l = h' !! l) ∧
    (∀ t, Heap.represents h' x t → Heap.represents (Heap.run ms h') x t) ∧
    (∀ stack, Heap.canonicalize stack (Heap.run ms h') x
              = Heap.canonicalize stack h' x).
Proof.
  intros Hrun ms.
  assert (∀ l, Heap.reachable h' x l → Heap.run ms h' !! l = h' !! l) as Hsame.
  { apply run_protected; [|done]. by eapply deepFreeze_protected. }
  split; [done|]. split.
  - intros t. by apply represents_agree.
  - intros stack. by apply canonicalize_agree.
Qed.

(** C7, as the code has it.  On a value without cycles [deepFreeze]
    returns, as soon as the stack is deeper than the value; it returns its
    argument, every array and object below it is frozen, and nothing else
    has changed: no content of any object, no frozen mark that was set, and
    nothing at all of an object that is not below the argument.  There is no
    record of the objects visited: on a value that contains a cycle the
    recursion exceeds every call stack. *)
Theorem deepFreeze_terminates_without_cycle h x :
  (∀ t fuel, Heap.represents h x t → (depth t < fuel)%nat →
     ∃ h', Heap.deepFreeze fuel h x = Heap.Returned (h', x) ∧
           (∀ l, Heap.reachable h x l → Heap.frozen_at h' l) ∧
           Heap.more_frozen h h' ∧
           (∀ l, ¬ Heap.reachable h x l → h' !! l = h !! l) ∧
           Heap.represents h' x t) ∧
  (Heap.well_formed h → Heap.contains_cycle h x →
     ∀ fuel, Heap.deepFreeze fuel h x = Heap.RangeError).
Proof.
  split.
  - intros t fuel Hrep Hfuel.
    destruct (deepFreeze_terminates t fuel h x Hrep Hfuel) as (h' & Hrun).
    destruct (deepFreeze_returned _ _ _ _ _ Hrun) as [Hmf Hfrozen].
    exists h'. split; [done|]. split; [done|]. split; [done|]. split.
    + intros l Hl. apply more_frozen_lookup; [done|].
      intros Hfr. by destruct (deepFreeze_origin _ _ _ _ _ Hrun l Hfr).
    + eapply represents_same_content; [apply Hmf|done].
  - apply deepFreeze_cycle_RangeError.
Qed.

End HeapClaims.

(** *** Examples on the heap *)

Lemma self_heap_well_formed : Heap.well_formed self_heap.
Proof. by apply (bool_decide_unpack _). Qed.

Lemma self_heap_cycle : Heap.contains_cycle self_heap (Heap.Ref 0).
Proof.
  exists 0%nat. split; [constructor|].
  eexists _, (Heap.Ref 0). split; [reflexivity|].
  split; [left|constructor].
Qed.

Lemma nested_heap_represents :
  Heap.represents nested_heap (Heap.Ref 0) nested_tree.
Proof.
  eapply Heap.represents_object; [reflexivity..|].
  constructor; [|constructor]. split; [done|].
  eapply Heap.represents_array; [reflexivity..|].
  repeat constructor.
Qed.

Lemma canonicalize_malformed_input_witness :
  Heap.canonicalize 1 self_heap (Heap.Num NaN) = Heap.Returned (lit "null") ∧
  ∀ fuel, Heap.canonicalize fuel self_heap (Heap.Ref 0) = Heap.RangeError.
Proof.
  destruct (canonicalize_malformed_input self_heap) as [Hnum Hcyc].
  split.
  - exact (Hnum 0%nat NaN eq_refl).
  - exact (Hcyc (Heap.Ref 0) self_heap_well_formed self_heap_cycle).
Defined.

(** C3 as stated fails: [NaN] is answered with a string, and on the object
    that holds itself every bound on the recursion is exceeded. *)
Lemma canonicalize_malformed_counterexample :
  Heap.canonicalize 1 ([] : list (Heap.object N)) (Heap.Num NaN)
  = Heap.Returned (lit "null") ∧
  ∀ fuel, Heap.canonicalize fuel self_heap (Heap.Ref 0) = Heap.RangeError.
Proof.
  split; [reflexivity|].
  exact (canonicalize_cycle_RangeError _ _ self_heap_well_formed
           self_heap_cycle).
Qed.

Lemma deepFreeze_protects_witness :
  Heap.deepFreeze 3 nested_heap (Heap.Ref 0)
  = Heap.Returned (nested_heap_frozen, Heap.Ref 0) ∧
  ∀ ms : list (Heap.mutation N),
    (∀ l, Heap.reachable nested_heap_frozen (Heap.Ref 0) l →
          Heap.run ms nested_heap_frozen !! l = nested_heap_frozen !! l) ∧
    (∀ t, Heap.represents nested_heap_frozen (Heap.Ref 0) t →
          Heap.represents (Heap.run ms nested_heap_frozen) (Heap.Ref 0) t) ∧
    (∀ stack, Heap.canonicalize stack (Heap.run ms nested_heap_frozen)
                (Heap.Ref 0)
              = Heap.canonicalize stack nested_heap_frozen (Heap.Ref 0)).
Proof.
  split; [reflexivity|].
  exact (deepFreeze_protects 3 nested_heap (Heap.Ref 0) nested_heap_frozen
           (Heap.Ref 0) eq_refl).
Defined.

Lemma deepFreeze_terminates_without_cycle_witness :
  (∃ h', Heap.deepFreeze 3 nested_heap (Heap.Ref 0)
         = Heap.Returned (h', Heap.Ref 0) ∧
         (∀ l, Heap.reachable nested_heap (Heap.Ref 0) l →
               Heap.frozen_at h' l) ∧
         Heap.more_frozen nested_heap h' ∧
         (∀ l, ¬ Heap.reachable nested_heap (Heap.Ref 0) l →
               h' !! l = nested_heap !! l) ∧
         Heap.represents h' (Heap.Ref 0) nested_tree) ∧
  ∀ fuel, Heap.deepFreeze fuel self_heap (Heap.Ref 0) = Heap.RangeError.
Proof.
  split.
  - apply (proj1 (deepFreeze_terminates_without_cycle nested_heap (Heap.Ref 0))
             nested_tree 3%nat nested_heap_represents).
    simpl. lia.
  - exact (proj2 (deepFreeze_terminates_without_cycle self_heap (Heap.Ref 0))
             self_heap_well_formed self_heap_cycle).
Defined.

(** C7 as stated fails: [deepFreeze] never returns on the object that holds
    itself. *)
Lemma deepFreeze_cycle_counterexample :
  (∀ fuel, Heap.deepFreeze fuel self_heap (Heap.Ref 0) = Heap.RangeError) ∧
  ¬ ∃ fuel r, Heap.deepFreeze fuel self_heap (Heap.Ref 0) = Heap.Returned r.
Proof.
  pose proof (deepFreeze_cycle_RangeError _ _ self_heap_well_formed
                self_heap_cycle) as Hcyc.
  split; [done|]. intros (fuel & r & Hr). by rewrite Hcyc in Hr.
Qed.

(** C8 fails on the key [__proto__]: [JSON.parse('{"__proto__":1}')] has
    that own property, and its clone has none. *)
Theorem deepClone_drops_proto_key :
  Heap.deepFreeze 2 proto_heap (Heap.Ref 0)
  = Heap.Returned (proto_heap_frozen, Heap.Ref 0) ∧
  Heap.deepClone 2 proto_heap_frozen (Heap.Ref 0)
  = Heap.Returned (proto_heap_frozen ++ [Heap.Obj false (Heap.ObjectOf [])],
                   Heap.Ref 1) ∧
  Heap.represents proto_heap_frozen (Heap.Ref 0)
    (VObject [(Heap.proto_key, int 1)]) ∧
  Heap.represents (proto_heap_frozen ++ [Heap.Obj false (Heap.ObjectOf [])])
    (Heap.Ref 1) (VObject []) ∧
  ¬ same_content (VObject [(Heap.proto_key, int 1)]) (VObject []).
Proof.
  split; [reflexivity|]. split; [reflexivity|]. split; [|split].
  - eapply Heap.represents_object; [reflexivity..|].
    repeat constructor.
  - eapply Heap.represents_object; [reflexivity..|]. constructor.
  - inversion 1 as [| |? ? Hperm _]; subst.
    by apply Permutation_length in Hperm.
Qed.

(** ** The canonical string is a faithful encoding *)

(** C2. On supported values (finite numbers, strings of 16-bit code units,
    objects without repeated keys) two canonical strings are equal exactly
    when the values have the same content, the order of keys apart; values
    with different content have different canonical strings.  Finite
    numbers are compared as [===] does, and Number::toString is taken to
    print them faithfully. *)
Theorem canonicalize_faithful {F : Type} `{NumberPrinterFaithful F}
    (v1 v2 : Value F) :
  supported v1 → supported v2 →
  (canonicalize v1 = canonicalize v2 ↔ same_content v1 v2) ∧
  (¬ same_content v1 v2 → canonicalize v1 ≠ canonicalize v2).
Proof.
  intros Hs1 Hs2.
  assert (canonicalize v1 = canonicalize v2 → same_content v1 v2) as Hinj.
  { intros Heq.
    destruct (canonicalize_read_back v1 Hs1 v2 [] [] Hs2 I I) as [Hsame _];
      [by rewrite !app_nil_r|done]. }
  split; [|by auto].
  split; [done|]. apply same_content_canonicalize.
Qed.

Lemma ab_object_supported : supported ab_object.
Proof.
  constructor; [by apply (bool_decide_unpack _)|].
  repeat constructor; by apply (bool_decide_unpack _).
Qed.

Lemma ba_object_supported : supported ba_object.
Proof.
  constructor; [by apply (bool_decide_unpack _)|].
  repeat constructor; by apply (bool_decide_unpack _).
Qed.

Lemma canonicalize_faithful_witness :
  (canonicalize ab_object = canonicalize ba_object
   ↔ same_content ab_object ba_object) ∧
  (¬ same_content ab_object ba_object →
   canonicalize ab_object ≠ canonicalize ba_object).
Proof.
  exact (canonicalize_faithful ab_object ba_object
           ab_object_supported ba_object_supported).
Defined.

(** ** Further properties of the five functions *)

Section HeapExtras.

Context {F : Type} `{NumberPrinter F}.

Implicit Types (h : list (Heap.object F)) (x y v : Heap.value F).

(** X1. Whenever [canonicalize] returns, its argument has no cycle and the
    string is the canonical string of the tree the argument reads as: never
    a partial one, whatever the stack left. *)
Theorem canonicalize_returns_canonical_string fuel h v s :
  Heap.well_formed h →
  Heap.canonicalize fuel h v = Heap.Returned s →
  ∃ t, Heap.represents h v t ∧ s = canonicalize t.
Proof.
  intros Hwf Hrun.
  destruct (canonicalize_returns_tree fuel h v s Hwf Hrun) as [t Ht].
  exists t. split; [done|].
  pose proof (canonicalize_represents t (fuel `max` S (depth t)) h v Ht
                ltac:(lia)) as Hbridge.
  apply (fuel_le_mono (λ n, Heap.canonicalize n h v)
           (λ n r, canonicalize_fuel_S n h v r) fuel
           (fuel `max` S (depth t))) in Hrun; [|lia].
  congruence.
Qed.

(** X2. On a value without cycles, however its parts are shared in the
    heap, [canonicalize] returns the canonical string of the tree it reads
    as, as soon as the stack is deeper than the value. *)
Theorem canonicalize_returns_on_trees (t : Value F) fuel h v :
  Heap.represents h v t → (depth t < fuel)%nat →
  Heap.canonicalize fuel h v = Heap.Returned (canonicalize t).
Proof. apply canonicalize_represents. Qed.

(** X3. What a call returns does not depend on the stack it was given: with
    a deeper stack [canonicalize], [deepFreeze] and [deepClone] return the
    same. *)
Theorem deeper_stack_same_result (fuel fuel' : nat) h x :
  (fuel ≤ fuel')%nat →
  (∀ s, Heap.canonicalize fuel h x = Heap.Returned s →
        Heap.canonicalize fuel' h x = Heap.Returned s) ∧
  (∀ r, Heap.deepFreeze fuel h x = Heap.Returned r →
        Heap.deepFreeze fuel' h x = Heap.Returned r) ∧
  (∀ r, Heap.deepClone fuel h x = Heap.Returned r →
        Heap.deepClone fuel' h x = Heap.Returned r).
Proof.
  intros Hle. repeat split; intros r.
  - by apply (fuel_le_mono (λ n, Heap.canonicalize n h x)
                (λ n r, canonicalize_fuel_S n h x r)).
  - by apply (fuel_le_mono (λ n, Heap.deepFreeze n h x)
                (λ n r, deepFreeze_fuel_S n h x r)).
  - by apply (fuel_le_mono (λ n, Heap.deepClone n h x)
                (λ n r, deepClone_fuel_S n h x r)).
Qed.

(** X4. [deepFreeze] changes nothing but frozen marks, and only those of
    the objects below its argument: every other object of the heap is as it
    was. *)
Theorem deepFreeze_touches_only_reachable fuel h x h' x' :
  Heap.deepFreeze fuel h x = Heap.Returned (h', x') →
  map Heap.content h' = map Heap.content h ∧
  ∀ l, ¬ Heap.reachable h x l → h' !! l = h !! l.
Proof.
  intros Hrun.
  destruct (deepFreeze_returned _ _ _ _ _ Hrun) as [Hmf _].
  split; [by destruct Hmf|].
  intros l Hl. apply more_frozen_lookup; [done|].
  intros Hfr. by destruct (deepFreeze_origin _ _ _ _ _ Hrun l Hfr).
Qed.

(** X5. Freezing twice is freezing once: on the heap it has left,
    [deepFreeze] of the same value returns and changes nothing. *)
Theorem deepFreeze_idempotent fuel h x h' x' :
  Heap.deepFreeze fuel h x = Heap.Returned (h', x') →
  Heap.deepFreeze fuel h' x = Heap.Returned (h', x).
Proof. intros Hrun. by eapply deepFreeze_again. Qed.

(** X6. [deepFreeze] does not change what [canonicalize] answers, for its
    argument or for any other value of the heap. *)
Theorem deepFreeze_keeps_canonical_string fuel h x h' x' :
  Heap.deepFreeze fuel h x = Heap.Returned (h', x') →
  ∀ stack v, Heap.canonicalize stack h' v = Heap.canonicalize stack h v.
Proof.
  intros Hrun stack v.
  destruct (deepFreeze_returned _ _ _ _ _ Hrun) as [[Heq _] _].
  by apply canonicalize_same_content.
Qed.

(** X7. [deepFreeze] returns on nothing but values without cycles: when it
    returns, its argument reads as a tree, before and after. *)
Theorem deepFreeze_returns_only_on_trees fuel h x h' x' :
  Heap.deepFreeze fuel h x = Heap.Returned (h', x') →
  ∃ t : Value F, Heap.represents h x t ∧ Heap.represents h' x t.
Proof.
  intros Hrun.
  destruct (deepFreeze_returns_tree _ _ _ _ Hrun) as [t Ht].
  destruct (deepFreeze_returned _ _ _ _ _ Hrun) as [[Heq _] _].
  exists t. split; [done|]. by apply (represents_same_content h).
Qed.

(** X8. [deepClone] changes no object that was there before the call, not
    even a frozen mark: the heap it leaves starts with the heap it was
    given. *)
Theorem deepClone_changes_no_object fuel h x h' y :
  Heap.deepClone fuel h x = Heap.Returned (h', y) →
  h `prefix_of` h' ∧ ∀ l o, h !! l = Some o → h' !! l = Some o.
Proof.
  intros Hpre%deepClone_prefix. split; [done|].
  intros l o. by apply prefix_lookup.
Qed.

(** X9. On a value without cycles [deepClone] returns, as soon as the
    stack is deeper than the value, something that reads as the value
    without its [__proto__] keys, through objects that are all new and not
    frozen, the value having been frozen or not. *)
Theorem deepClone_reads_without_proto (t : Value F) fuel h x :
  unique_keys t → Heap.represents h x t → (depth t < fuel)%nat →
  ∃ h' y,
    Heap.deepClone fuel h x = Heap.Returned (h', y) ∧
    Heap.represents h' y (without_proto t) ∧
    ∀ l, Heap.reachable h' y l →
         (length h ≤ l)%nat ∧ Heap.frozen <$> h' !! l = Some false.
Proof.
  intros Huk Hrep Hfuel.
  destruct (deepClone_spec t Huk fuel Hfuel h x Hrep)
    as (h' & y & Hrun & _ & Hrep' & Hnew).
  by exists h', y.
Qed.

(** X10. [deepClone] has no record of the objects it has visited: on a
    value that contains a cycle it exceeds every call stack. *)
Theorem deepClone_never_returns_on_cycle h x :
  Heap.well_formed h → Heap.contains_cycle h x →
  ∀ fuel, Heap.deepClone fuel h x = Heap.RangeError.
Proof. apply deepClone_cycle_RangeError. Qed.

(** X11. The clone and the original share nothing.  Whatever is then done
    to the objects that were there before the call, the clone reads the
    same; and a change of an object of the clone changes none of them. *)
Theorem deepClone_shares_nothing (t : Value F) fuel h x :
  unique_keys t → Heap.represents h x t → (depth t < fuel)%nat →
  ∃ h' y,
    Heap.deepClone fuel h x = Heap.Returned (h', y) ∧
    (∀ ms, Forall (old_object (length h)) ms →
           Heap.represents (Heap.run ms h') y (without_proto t)) ∧
    (∀ l f l', Heap.reachable h' y l → (l' < length h)%nat →
               Heap.attempt l f h' !! l' = h' !! l').
Proof.
  intros Huk Hrep Hfuel.
  destruct (deepClone_spec t Huk fuel Hfuel h x Hrep)
    as (h' & y & Hrun & _ & Hclone).
  exists h', y. split; [done|]. split.
  - intros ms Hms.
    assert (Heap.cloned_at (length h) (Heap.run ms h') y (without_proto t))
      as [? _]; [|done].
    clear Hrun. revert h' Hclone. induction Hms as [|m ms Hm _ IH];
      intros h' Hclone; [done|].
    apply IH. by apply cloned_at_after_mutation.
  - intros l f l' Hl Hl'. by eapply clone_change_independent.
Qed.

(** X12. The clone has the canonical string of the original without its
    [__proto__] keys; when no key is [__proto__], [canonicalize] answers
    the same for the clone and for the original. *)
Theorem deepClone_keeps_canonical_string (t : Value F) fuel h x :
  unique_keys t → Heap.represents h x t → (depth t < fuel)%nat →
  ∃ h' y,
    Heap.deepClone fuel h x = Heap.Returned (h', y) ∧
    (∀ stack, (depth (without_proto t) < stack)%nat →
       Heap.canonicalize stack h' y
       = Heap.Returned (canonicalize (without_proto t))) ∧
    (without_proto t = t →
       Heap.canonicalize fuel h' y = Heap.canonicalize fuel h x).
Proof.
  intros Huk Hrep Hfuel.
  destruct (deepClone_spec t Huk fuel Hfuel h x Hrep)
    as (h' & y & Hrun & _ & Hrep' & _).
  exists h', y. split; [done|]. split.
  - intros stack Hstack. by apply canonicalize_represents.
  - intros Hsame. rewrite Hsame in Hrep'.
    by rewrite (canonicalize_represents t fuel h' y),
      (canonicalize_represents t fuel h x).
Qed.

End HeapExtras.

Section TreeExtras.

Context {F : Type} `{NumberPrinter F}.

(** X13. A digest is 64 lowercase hexadecimal characters, whatever the
    input. *)
Theorem sha256Hex_is_64_lower_hex (input : Value F) :
  length (sha256Hex input) = 64%nat ∧ Forall is_lower_hex (sha256Hex input).
Proof. split; [apply sha256Hex_length|apply sha256Hex_lower]. Qed.

(** X14. An identifier determines its prefix, even when the prefix has
    underscores of its own: two identifiers are equal only for the same
    prefix and the same 32 characters of digest. *)
Theorem id32_determines_prefix (prefix1 prefix2 : jsstring)
    (material1 material2 : Value F) :
  id32 prefix1 material1 = id32 prefix2 material2 →
  prefix1 = prefix2 ∧
  take 32 (sha256Hex material1) = take 32 (sha256Hex material2).
Proof.
  unfold id32, String_slice0. intros Heq.
  apply app_inj_2 in Heq as [-> Heq].
  - split; [done|]. by apply app_inv_head in Heq.
  - rewrite !length_app, !length_take, !sha256Hex_length. done.
Qed.

(** X16. A number that is not finite is written as [null] wherever it
    stands: replacing all of them by [null], at any depth, changes neither
    the canonical string nor the digest. *)
Theorem canonicalize_non_finite_inside (v : Value F) :
  canonicalize (nulled v) = canonicalize v ∧
  sha256Hex (nulled v) = sha256Hex v.
Proof.
  pose proof (canonicalize_nulled v) as Heq. split; [done|].
  unfold sha256Hex. by rewrite Heq.
Qed.

End TreeExtras.

(** X15. A canonical string has no control character: every code unit is
    at least 32, so that it is one line, whatever the strings inside.
    Number::toString is taken to print with digits, signs, a point and an
    exponent mark. *)
Theorem canonicalize_has_no_control_character {F : Type}
    `{NumberPrinterFaithful F} (v : Value F) :
  Forall (λ u, 32 <= u) (canonicalize v).
Proof. apply canonicalize_printable. Qed.

(** *** Instances of the properties above *)

Lemma nested_heap_well_formed : Heap.well_formed nested_heap.
Proof. by apply (bool_decide_unpack _). Qed.

Lemma nested_heap_frozen_represents :
  Heap.represents nested_heap_frozen (Heap.Ref 0) nested_tree.
Proof.
  eapply Heap.represents_object; [reflexivity..|].
  constructor; [|constructor]. split; [done|].
  eapply Heap.represents_array; [reflexivity..|].
  repeat constructor.
Qed.

Lemma nested_tree_unique_keys : unique_keys nested_tree.
Proof.
  apply unique_object; [by apply (bool_decide_unpack _)|].
  constructor; [|constructor]. apply unique_array.
  by repeat constructor.
Qed.

Lemma canonicalize_returns_canonical_string_witness :
  ∃ t, Heap.represents nested_heap (Heap.Ref 0) t ∧
       canonicalize nested_tree = canonicalize t.
Proof.
  exact (canonicalize_returns_canonical_string 3 nested_heap (Heap.Ref 0)
           (canonicalize nested_tree) nested_heap_well_formed eq_refl).
Defined.

Lemma canonicalize_returns_on_trees_witness :
  Heap.canonicalize 3 nested_heap (Heap.Ref 0)
  = Heap.Returned (canonicalize nested_tree).
Proof.
  apply (canonicalize_returns_on_trees nested_tree 3 nested_heap (Heap.Ref 0)
           nested_heap_represents).
  simpl. lia.
Defined.

Lemma deeper_stack_same_result_witness :
  (∀ s, Heap.canonicalize 3 nested_heap (Heap.Ref 0) = Heap.Returned s →
        Heap.canonicalize 5 nested_heap (Heap.Ref 0) = Heap.Returned s) ∧
  (∀ r, Heap.deepFreeze 3 nested_heap (Heap.Ref 0) = Heap.Returned r →
        Heap.deepFreeze 5 nested_heap (Heap.Ref 0) = Heap.Returned r) ∧
  (∀ r, Heap.deepClone 3 nested_heap (Heap.Ref 0) = Heap.Returned r →
        Heap.deepClone 5 nested_heap (Heap.Ref 0) = Heap.Returned r).
Proof.
  apply (deeper_stack_same_result 3 5 nested_heap (Heap.Ref 0)). lia.
Defined.

Lemma deepFreeze_touches_only_reachable_witness :
  map Heap.content nested_heap_frozen = map Heap.content nested_heap ∧
  ∀ l, ¬ Heap.reachable nested_heap (Heap.Ref 1) l →
       (Heap.Object_freeze 1 nested_heap) !! l = nested_heap !! l.
Proof.
  split; [reflexivity|].
  exact (proj2 (deepFreeze_touches_only_reachable 2 nested_heap (Heap.Ref 1)
                  (Heap.Object_freeze 1 nested_heap) (Heap.Ref 1) eq_refl)).
Defined.

Lemma deepFreeze_idempotent_witness :
  Heap.deepFreeze 3 nested_heap_frozen (Heap.Ref 0)
  = Heap.Returned (nested_heap_frozen, Heap.Ref 0).
Proof.
  exact (deepFreeze_idempotent 3 nested_heap (Heap.Ref 0) nested_heap_frozen
           (Heap.Ref 0) eq_refl).
Defined.

Lemma deepFreeze_keeps_canonical_string_witness :
  Heap.canonicalize 3 nested_heap_frozen (Heap.Ref 0)
  = Heap.canonicalize 3 nested_heap (Heap.Ref 0).
Proof.
  exact (deepFreeze_keeps_canonical_string 3 nested_heap (Heap.Ref 0)
           nested_heap_frozen (Heap.Ref 0) eq_refl 3%nat (Heap.Ref 0)).
Defined.

Lemma deepFreeze_returns_only_on_trees_witness :
  ∃ t : Value N, Heap.represents nested_heap (Heap.Ref 0) t ∧
                 Heap.represents nested_heap_frozen (Heap.Ref 0) t.
Proof.
  exact (deepFreeze_returns_only_on_trees 3 nested_heap (Heap.Ref 0)
           nested_heap_frozen (Heap.Ref 0) eq_refl).
Defined.

Lemma deepClone_changes_no_object_witness :
  nested_heap_frozen `prefix_of` nested_heap_cloned ∧
  ∀ l o, nested_heap_frozen !! l = Some o → nested_heap_cloned !! l = Some o.
Proof.
  exact (deepClone_changes_no_object 3 nested_heap_frozen (Heap.Ref 0)
           nested_heap_cloned (Heap.Ref 2) eq_refl).
Defined.

Lemma deepClone_reads_without_proto_witness :
  ∃ h' y,
    Heap.deepClone 3 nested_heap_frozen (Heap.Ref 0) = Heap.Returned (h', y) ∧
    Heap.represents h' y (without_proto nested_tree) ∧
    ∀ l, Heap.reachable h' y l →
         (length nested_heap_frozen ≤ l)%nat ∧
         Heap.frozen <$> h' !! l = Some false.
Proof.
  apply (deepClone_reads_without_proto nested_tree 3 nested_heap_frozen
           (Heap.Ref 0) nested_tree_unique_keys nested_heap_frozen_represents).
  simpl. lia.
Defined.

Lemma deepClone_never_returns_on_cycle_witness :
  Heap.deepClone 1000 self_heap (Heap.Ref 0) = Heap.RangeError.
Proof.
  exact (deepClone_never_returns_on_cycle self_heap (Heap.Ref 0)
           self_heap_well_formed self_heap_cycle 1000%nat).
Defined.

Lemma deepClone_shares_nothing_witness :
  ∃ h' y,
    Heap.deepClone 3 nested_heap_frozen (Heap.Ref 0) = Heap.Returned (h', y) ∧
    (∀ ms, Forall (old_object (length nested_heap_frozen)) ms →
           Heap.represents (Heap.run ms h') y (without_proto nested_tree)) ∧
    (∀ l f l', Heap.reachable h' y l →
               (l' < length nested_heap_frozen)%nat →
               Heap.attempt l f h' !! l' = h' !! l').
Proof.
  apply (deepClone_shares_nothing nested_tree 3 nested_heap_frozen
           (Heap.Ref 0) nested_tree_unique_keys nested_heap_frozen_represents).
  simpl. lia.
Defined.

Lemma deepClone_keeps_canonical_string_witness :
  ∃ h' y,
    Heap.deepClone 3 nested_heap_frozen (Heap.Ref 0) = Heap.Returned (h', y) ∧
    (∀ stack, (depth (without_proto nested_tree) < stack)%nat →
       Heap.canonicalize stack h' y
       = Heap.Returned (canonicalize (without_proto nested_tree))) ∧
    (without_proto nested_tree = nested_tree →
       Heap.canonicalize 3 h' y
       = Heap.canonicalize 3 nested_heap_frozen (Heap.Ref 0)).
Proof.
  apply (deepClone_keeps_canonical_string nested_tree 3 nested_heap_frozen
           (Heap.Ref 0) nested_tree_unique_keys nested_heap_frozen_represents).
  simpl. lia.
Defined.

Lemma id32_determines_prefix_witness :
  lit "cred" = lit "cred" ∧
  take 32 (sha256Hex (VString (lit "alice") : Value N))
  = take 32 (sha256Hex (VString (lit "alice") : Value N)).
Proof.
  exact (id32_determines_prefix (lit "cred") (lit "cred")
           (VString (lit "alice")) (VString (lit "alice")) eq_refl).
Defined.

Lemma canonicalize_has_no_control_character_witness :
  Forall (λ u, 32 <= u)
    (canonicalize (VString [0x41; 0x0A; 0x22; 0x5C; 0x01] : Value N)).
Proof.
  exact (canonicalize_has_no_control_character
           (VString [0x41; 0x0A; 0x22; 0x5C; 0x01])).
Defined.
